(** * A64TestEnv: the guest-memory and tick-budget environment of demo.c

    A shallow embedding of the [A64TestEnv] class (the callback object the
    JIT is driven with) and the properties of its memory, code-fetch, tick
    and event callbacks.

    Conventions.
    - [u8], [u16], [u32], [u64] values are integers in [Z]; every C++
      conversion or unsigned operation that can wrap is written with the
      matching [wrapN] (reduction modulo [2^N]).
    - [std::map<u64, u8>] is a [gmap Z Z]; [std::vector<u32>] is a [list Z];
      [std::vector<std::string>] is a [list string].
    - the non-const member functions are computations in the state monad
      [M] over the object's fields; the one [const] member function,
      [IsInCodeMem], is a pure function of the object. *)

From Stdlib Require Import ZArith Lia String.
From stdpp Require Import base option list gmap.

Local Open Scope Z_scope.

(** ** Fixed-width unsigned arithmetic *)

Definition wrap8 (x : Z) : Z := x mod 2 ^ 8.
Definition wrap16 (x : Z) : Z := x mod 2 ^ 16.
Definition wrap32 (x : Z) : Z := x mod 2 ^ 32.
Definition wrap64 (x : Z) : Z := x mod 2 ^ 64.

Definition is_u8 (x : Z) : Prop := 0 <= x < 2 ^ 8.
Definition is_u64 (x : Z) : Prop := 0 <= x < 2 ^ 64.

(** Closed range side conditions, by evaluation. *)
Ltac range_closed :=
  unfold is_u8, is_u64; vm_compute; split; congruence.

(** [Dynarmic::A64::Vector] is [std::array<u64, 2>]. *)
Definition Vector : Type := (Z * Z)%type.

(** ** The object state *)

Record A64TestEnv : Type := mkEnv {
  ticks_left : Z;
  code_mem_modified_by_guest : bool;
  code_mem_start_address : Z;
  code_mem : list Z;
  modified_memory : gmap Z Z;
  interrupts : list string
}.

(** The default member initialisers: what [A64TestEnv env;] constructs. *)
Definition A64TestEnv_new : A64TestEnv :=
  {| ticks_left := 0;
     code_mem_modified_by_guest := false;
     code_mem_start_address := 0;
     code_mem := [];
     modified_memory := ∅;
     interrupts := [] |}.

Definition set_ticks_left (t : Z) (e : A64TestEnv) : A64TestEnv :=
  {| ticks_left := t;
     code_mem_modified_by_guest := code_mem_modified_by_guest e;
     code_mem_start_address := code_mem_start_address e;
     code_mem := code_mem e;
     modified_memory := modified_memory e;
     interrupts := interrupts e |}.

Definition set_code_mem_modified_by_guest (b : bool) (e : A64TestEnv)
  : A64TestEnv :=
  {| ticks_left := ticks_left e;
     code_mem_modified_by_guest := b;
     code_mem_start_address := code_mem_start_address e;
     code_mem := code_mem e;
     modified_memory := modified_memory e;
     interrupts := interrupts e |}.

Definition set_modified_memory (m : gmap Z Z) (e : A64TestEnv) : A64TestEnv :=
  {| ticks_left := ticks_left e;
     code_mem_modified_by_guest := code_mem_modified_by_guest e;
     code_mem_start_address := code_mem_start_address e;
     code_mem := code_mem e;
     modified_memory := m;
     interrupts := interrupts e |}.

(** ** The state monad of the member functions *)

Definition M (A : Type) : Type := A64TestEnv → A * A64TestEnv.

Definition ret {A : Type} (x : A) : M A := λ e, (x, e).
Definition bind {A B : Type} (m : M A) (f : A → M B) : M B :=
  λ e, let '(x, e') := m e in f x e'.

Notation "'let*' x ':=' m 'in' k" := (bind m (λ x, k))
  (at level 10, x name, m at level 100, k at level 200, only parsing).
Notation "m1 '>>' m2" := (bind m1 (λ _, m2))
  (at level 100, m2 at level 200, right associativity, only parsing).

Definition gets {A : Type} (f : A64TestEnv → A) : M A := λ e, (f e, e).
Definition modify (f : A64TestEnv → A64TestEnv) : M unit := λ e, (tt, f e).

(** Result and final state of running a member function on an object. *)
Definition eval {A : Type} (m : M A) (e : A64TestEnv) : A := fst (m e).
Definition exec {A : Type} (m : M A) (e : A64TestEnv) : A64TestEnv :=
  snd (m e).

(** ** Member functions *)

(** [bool IsInCodeMem(u64 vaddr) const].  The upper bound is computed in
    [size_t] and then [u64] arithmetic (both 64 bits wide on the hosts the
    JIT supports), hence the two reductions. *)
Definition IsInCodeMem (e : A64TestEnv) (vaddr : Z) : bool :=
  (code_mem_start_address e <=? vaddr)
  && (vaddr <? wrap64 (code_mem_start_address e
                       + wrap64 (Z.of_nat (length (code_mem e)) * 4))).

(** [code_mem[index]]: indexing past the end is undefined in C++; the model
    yields [0] there, and [IsInCodeMem_index] shows the guarded accesses
    never get there. *)
Definition code_word (words : list Z) (index : Z) : Z :=
  default 0 (words !! Z.to_nat index).

(** [reinterpret_cast<u8*>(code_mem.data())[off]]: byte [off] of the word
    array as laid out in memory by a little-endian host. *)
Definition code_byte (words : list Z) (off : Z) : Z :=
  Z.land (Z.shiftr (code_word words (off / 4)) (8 * (off mod 4))) 255.

Definition MemoryReadCode (vaddr : Z) : M (option Z) :=
  let* in_code := gets (λ e, IsInCodeMem e vaddr) in
  if negb in_code then ret (Some 0x14000000)
  else
    let* index := gets (λ e, wrap64 (vaddr - code_mem_start_address e) / 4) in
    let* w := gets (λ e, code_word (code_mem e) index) in
    ret (Some w).

Definition MemoryRead8 (vaddr : Z) : M Z :=
  let* in_code := gets (λ e, IsInCodeMem e vaddr) in
  if in_code
  then gets (λ e, code_byte (code_mem e)
                    (wrap64 (vaddr - code_mem_start_address e)))
  else
    let* iter := gets (λ e, modified_memory e !! vaddr) in
    match iter with
    | Some second => ret second
    | None => ret (wrap8 vaddr)
    end.

(** The wider reads: [lo | hi << k], converted to the return type.  Both
    operands are read before they are combined; the reads do not change the
    object, so the unspecified order of the two calls is immaterial. *)
Definition MemoryRead16 (vaddr : Z) : M Z :=
  let* lo := MemoryRead8 vaddr in
  let* hi := MemoryRead8 (wrap64 (vaddr + 1)) in
  ret (wrap16 (Z.lor lo (Z.shiftl hi 8))).

Definition MemoryRead32 (vaddr : Z) : M Z :=
  let* lo := MemoryRead16 vaddr in
  let* hi := MemoryRead16 (wrap64 (vaddr + 2)) in
  ret (wrap32 (Z.lor lo (Z.shiftl hi 16))).

Definition MemoryRead64 (vaddr : Z) : M Z :=
  let* lo := MemoryRead32 vaddr in
  let* hi := MemoryRead32 (wrap64 (vaddr + 4)) in
  ret (wrap64 (Z.lor lo (Z.shiftl hi 32))).

Definition MemoryRead128 (vaddr : Z) : M Vector :=
  let* lo := MemoryRead64 vaddr in
  let* hi := MemoryRead64 (wrap64 (vaddr + 8)) in
  ret (lo, hi).

Definition MemoryWrite8 (vaddr value : Z) : M unit :=
  let* in_code := gets (λ e, IsInCodeMem e vaddr) in
  (if in_code then modify (set_code_mem_modified_by_guest true)
   else ret tt) >>
  modify (λ e, set_modified_memory (<[vaddr := value]> (modified_memory e)) e).

Definition MemoryWrite16 (vaddr value : Z) : M unit :=
  MemoryWrite8 vaddr (wrap8 value) >>
  MemoryWrite8 (wrap64 (vaddr + 1)) (wrap8 (Z.shiftr value 8)).

Definition MemoryWrite32 (vaddr value : Z) : M unit :=
  MemoryWrite16 vaddr (wrap16 value) >>
  MemoryWrite16 (wrap64 (vaddr + 2)) (wrap16 (Z.shiftr value 16)).

Definition MemoryWrite64 (vaddr value : Z) : M unit :=
  MemoryWrite32 vaddr (wrap32 value) >>
  MemoryWrite32 (wrap64 (vaddr + 4)) (wrap32 (Z.shiftr value 32)).

Definition MemoryWrite128 (vaddr : Z) (value : Vector) : M unit :=
  MemoryWrite64 vaddr (fst value) >>
  MemoryWrite64 (wrap64 (vaddr + 8)) (snd value).

Definition MemoryWriteExclusive8 (vaddr value expected : Z) : M bool :=
  MemoryWrite8 vaddr value >> ret true.

Definition MemoryWriteExclusive16 (vaddr value expected : Z) : M bool :=
  MemoryWrite16 vaddr value >> ret true.

Definition MemoryWriteExclusive32 (vaddr value expected : Z) : M bool :=
  MemoryWrite32 vaddr value >> ret true.

Definition MemoryWriteExclusive64 (vaddr value expected : Z) : M bool :=
  MemoryWrite64 vaddr value >> ret true.

Definition MemoryWriteExclusive128 (vaddr : Z) (value expected : Vector)
  : M bool :=
  MemoryWrite128 vaddr value >> ret true.

(** The three event callbacks have empty bodies (their assertions are
    commented out in the source).  [Dynarmic::A64::Exception] is declared
    by the library; the callback ignores it, so it is a type parameter. *)
Definition InterpreterFallback (pc num_instructions : Z) : M unit := ret tt.

Definition CallSVC (swi : Z) : M unit := ret tt.

Definition ExceptionRaised {Exception : Type} (pc : Z) (_ : Exception)
  : M unit := ret tt.

Definition AddTicks (ticks : Z) : M unit :=
  let* left := gets ticks_left in
  if ticks >? left then modify (set_ticks_left 0)
  else modify (set_ticks_left (wrap64 (left - ticks))).

Definition GetTicksRemaining : M Z := gets ticks_left.

Definition GetCNTPCT : M Z :=
  gets (λ e, wrap64 (0x10000000000 - ticks_left e)).

(** ** The callback interface as a datatype

    One constructor per overridden member function of
    [Dynarmic::A64::UserCallbacks]; [perform] dispatches a call and drops its
    result, [run] plays a sequence of calls in order. *)

Inductive Callback : Type :=
| CbMemoryReadCode (vaddr : Z)
| CbMemoryRead8 (vaddr : Z)
| CbMemoryRead16 (vaddr : Z)
| CbMemoryRead32 (vaddr : Z)
| CbMemoryRead64 (vaddr : Z)
| CbMemoryRead128 (vaddr : Z)
| CbMemoryWrite8 (vaddr value : Z)
| CbMemoryWrite16 (vaddr value : Z)
| CbMemoryWrite32 (vaddr value : Z)
| CbMemoryWrite64 (vaddr value : Z)
| CbMemoryWrite128 (vaddr : Z) (value : Vector)
| CbMemoryWriteExclusive8 (vaddr value expected : Z)
| CbMemoryWriteExclusive16 (vaddr value expected : Z)
| CbMemoryWriteExclusive32 (vaddr value expected : Z)
| CbMemoryWriteExclusive64 (vaddr value expected : Z)
| CbMemoryWriteExclusive128 (vaddr : Z) (value expected : Vector)
| CbInterpreterFallback (pc num_instructions : Z)
| CbCallSVC (swi : Z)
| CbExceptionRaised (pc exception : Z)
| CbAddTicks (ticks : Z)
| CbGetTicksRemaining
| CbGetCNTPCT.

Definition perform (c : Callback) : M unit :=
  match c with
  | CbMemoryReadCode a => MemoryReadCode a >> ret tt
  | CbMemoryRead8 a => MemoryRead8 a >> ret tt
  | CbMemoryRead16 a => MemoryRead16 a >> ret tt
  | CbMemoryRead32 a => MemoryRead32 a >> ret tt
  | CbMemoryRead64 a => MemoryRead64 a >> ret tt
  | CbMemoryRead128 a => MemoryRead128 a >> ret tt
  | CbMemoryWrite8 a v => MemoryWrite8 a v
  | CbMemoryWrite16 a v => MemoryWrite16 a v
  | CbMemoryWrite32 a v => MemoryWrite32 a v
  | CbMemoryWrite64 a v => MemoryWrite64 a v
  | CbMemoryWrite128 a v => MemoryWrite128 a v
  | CbMemoryWriteExclusive8 a v x => MemoryWriteExclusive8 a v x >> ret tt
  | CbMemoryWriteExclusive16 a v x => MemoryWriteExclusive16 a v x >> ret tt
  | CbMemoryWriteExclusive32 a v x => MemoryWriteExclusive32 a v x >> ret tt
  | CbMemoryWriteExclusive64 a v x => MemoryWriteExclusive64 a v x >> ret tt
  | CbMemoryWriteExclusive128 a v x => MemoryWriteExclusive128 a v x >> ret tt
  | CbInterpreterFallback pc n => InterpreterFallback pc n
  | CbCallSVC swi => CallSVC swi
  | CbExceptionRaised pc x => ExceptionRaised pc x
  | CbAddTicks n => AddTicks n
  | CbGetTicksRemaining => GetTicksRemaining >> ret tt
  | CbGetCNTPCT => GetCNTPCT >> ret tt
  end.

Fixpoint run (cs : list Callback) (e : A64TestEnv) : A64TestEnv :=
  match cs with
  | [] => e
  | c :: cs' => run cs' (exec (perform c) e)
  end.

(** The byte addresses each store touches, following the way the stores
    are composed in the source (every successor address is computed in
    [u64]). *)
Definition bytes8 (vaddr : Z) : list Z := [vaddr].
Definition bytes16 (vaddr : Z) : list Z :=
  bytes8 vaddr ++ bytes8 (wrap64 (vaddr + 1)).
Definition bytes32 (vaddr : Z) : list Z :=
  bytes16 vaddr ++ bytes16 (wrap64 (vaddr + 2)).
Definition bytes64 (vaddr : Z) : list Z :=
  bytes32 vaddr ++ bytes32 (wrap64 (vaddr + 4)).
Definition bytes128 (vaddr : Z) : list Z :=
  bytes64 vaddr ++ bytes64 (wrap64 (vaddr + 8)).

Definition written_addresses (c : Callback) : list Z :=
  match c with
  | CbMemoryWrite8 a _ | CbMemoryWriteExclusive8 a _ _ => bytes8 a
  | CbMemoryWrite16 a _ | CbMemoryWriteExclusive16 a _ _ => bytes16 a
  | CbMemoryWrite32 a _ | CbMemoryWriteExclusive32 a _ _ => bytes32 a
  | CbMemoryWrite64 a _ | CbMemoryWriteExclusive64 a _ _ => bytes64 a
  | CbMemoryWrite128 a _ | CbMemoryWriteExclusive128 a _ _ => bytes128 a
  | _ => []
  end.

(** Byte [i] of a value, least significant first. *)
Definition le_byte (i v : Z) : Z := (v / 2 ^ (8 * i)) mod 2 ^ 8.

(** The environment [main] sets up before [jit.Run()]: a budget of 100
    ticks and seven instruction words at address 0. *)
Definition main_env : A64TestEnv :=
  {| ticks_left := 100;
     code_mem_modified_by_guest := false;
     code_mem_start_address := 0;
     code_mem := [0xD2800000; 0xD2800001; 0xD2800042; 0x91000421;
                  0x8B020000; 0xF1000C3F; 0x54FFFFA1];
     modified_memory := ∅;
     interrupts := [] |}.

(** ** Predicates used in the statements *)

(** A call that returns with the object as it found it. *)
Definition read_only {A} (m : M A) : Prop := ∀ e, exec m e = e.

(** A relation between the object before and after a call: the Code
    Region and the interrupt list are the same, the self-modification flag
    is not lowered, and no overlay entry outside [touched] changes. *)
Record store_step (touched : list Z) (e e' : A64TestEnv) : Prop := {
  ss_start : code_mem_start_address e' = code_mem_start_address e;
  ss_code : code_mem e' = code_mem e;
  ss_interrupts : interrupts e' = interrupts e;
  ss_flag : code_mem_modified_by_guest e = true →
            code_mem_modified_by_guest e' = true;
  ss_other : ∀ b, b ∉ touched → modified_memory e' !! b = modified_memory e !! b
}.

(** ** The claims as the specification words them

    Each is stated on one object and one input, so that it can be tested
    on concrete values. *)

(** C1 as the specification words it, on one object, address and value. *)
Definition read_returns_stored (e : A64TestEnv) (a v : Z) : Prop :=
  eval (MemoryRead8 a) (exec (MemoryWrite8 a v) e) = v.

(** C2 as the specification words it: after the byte store, the fetched
    word carries the stored byte at the byte position of [a], and the flag
    is set. *)
Definition fetch_reflects_store (e : A64TestEnv) (a v : Z) : Prop :=
  let e' := exec (MemoryWrite8 a v) e in
  ∃ w, eval (MemoryReadCode a) e' = Some w
       ∧ le_byte ((a - code_mem_start_address e) mod 4) w = v
       ∧ code_mem_modified_by_guest e' = true.

(** C7 as the specification words it, first direction: a 32-bit store at
    [a], then the four byte reads at [a .. a+3] (addresses in [u64]). *)
Definition store32_then_bytes (e : A64TestEnv) (a v : Z) : Prop :=
  ∀ i, 0 <= i < 4 →
    eval (MemoryRead8 (wrap64 (a + i))) (exec (MemoryWrite32 a v) e)
    = le_byte i v.

(** Second direction: four byte stores at [a .. a+3], then one 32-bit
    read at [a]. *)
Definition bytes_then_load32 (e : A64TestEnv) (a b0 b1 b2 b3 : Z) : Prop :=
  eval (MemoryRead32 a)
    (exec (MemoryWrite8 a b0 >> MemoryWrite8 (wrap64 (a + 1)) b1 >>
           MemoryWrite8 (wrap64 (a + 2)) b2 >>
           MemoryWrite8 (wrap64 (a + 3)) b3) e)
  = b0 + b1 * 2 ^ 8 + b2 * 2 ^ 16 + b3 * 2 ^ 24.

(** The Code Region as the specification defines it (its section 3):
    [a] is "in code" when [base_address <= a < base_address + 4 * len],
    in unbounded arithmetic.  The source's [IsInCodeMem] computes the upper
    bound in [u64] instead. *)
Definition in_code_region (e : A64TestEnv) (a : Z) : bool :=
  (code_mem_start_address e <=? a)
  && (a <? code_mem_start_address e + 4 * Z.of_nat (length (code_mem e))).

(** The start address is a [u64] and the region ends below the top of the
    64-bit address space. *)
Definition region_below_top (e : A64TestEnv) : Prop :=
  is_u64 (code_mem_start_address e) ∧
  code_mem_start_address e + 4 * Z.of_nat (length (code_mem e)) < 2 ^ 64.

(** Two instruction words in the last eight bytes of the address space:
    the region ends exactly at [2^64]. *)
Definition top_env : A64TestEnv :=
  {| ticks_left := 0;
     code_mem_modified_by_guest := false;
     code_mem_start_address := 0xFFFFFFFFFFFFFFF8;
     code_mem := [0xD2800000; 0x14000000];
     modified_memory := ∅;
     interrupts := [] |}.

(** C3 as the specification words it, the part about stores: a byte store
    to an address inside the Code Region sets the flag. *)
Definition store_in_region_sets_flag (e : A64TestEnv) (a v : Z) : Prop :=
  in_code_region e a = true →
  code_mem_modified_by_guest (exec (MemoryWrite8 a v) e) = true.

(** C6 as the specification words it, the part about the region: the
    fetch at an aligned address inside the Code Region returns the word
    stored at index [(a - base_address) / 4]. *)
Definition fetch_in_region_is_stored_word (e : A64TestEnv) (a : Z) : Prop :=
  in_code_region e a = true → a mod 4 = 0 →
  eval (MemoryReadCode a) e
  = code_mem e !! Z.to_nat ((a - code_mem_start_address e) / 4).

(** C8 as the specification words it: the call adds one record at the end
    of the interrupt list. *)
Definition appends_record (m : M unit) (e : A64TestEnv) : Prop :=
  ∃ record, interrupts (exec m e) = interrupts e ++ [record].

(** ** Further vocabulary

    Used by the properties of the callbacks that go beyond the numbered
    claims. *)

(** [b] is one of the [n] consecutive [u64] addresses from [a], wrapping
    around at the top of the address space. *)
Definition in_span (a n b : Z) : Prop :=
  ∃ i, 0 <= i < n ∧ b = wrap64 (a + i).

(** A byte address a store to the addresses [touched] cannot change the
    value read from: it passes [IsInCodeMem], so that it reads from the
    word array, or it is not touched. *)
Definition unaffected (touched : list Z) (e : A64TestEnv) (b : Z) : Prop :=
  IsInCodeMem e b = true ∨ b ∉ touched.

(** What a sequence of callbacks does to the flag and to the key set of the
    overlay, on top of [store_step]. *)
Record store_effect (touched : list Z) (e e' : A64TestEnv) : Prop := {
  se_step : store_step touched e e';
  se_flag : code_mem_modified_by_guest e' =
            code_mem_modified_by_guest e || existsb (IsInCodeMem e) touched;
  se_dom : dom (modified_memory e') =
           dom (modified_memory e) ∪ list_to_set touched
}.

Definition is_u32 (x : Z) : Prop := 0 <= x < 2 ^ 32.

(** Every value the overlay holds is a byte: what the value type of
    [std::map<u64, u8>] guarantees. *)
Definition overlay_bytes (e : A64TestEnv) : Prop :=
  map_Forall (λ _ v, is_u8 v) (modified_memory e).

(** The way the source builds a store of [2 n] bytes from the store of
    [n] bytes, and likewise a load: [MemoryWrite16] is
    [write_double 1 MemoryWrite8], [MemoryRead32] is
    [read_double 2 MemoryRead16], and so on. *)
Definition write_double (n : Z) (writeN : Z → Z → M unit) (a v : Z)
  : M unit :=
  writeN a (v mod 2 ^ (8 * n)) >>
  writeN (wrap64 (a + n)) (Z.shiftr v (8 * n) mod 2 ^ (8 * n)).

Definition read_double (n : Z) (readN : Z → M Z) (a : Z) : M Z :=
  let* lo := readN a in
  let* hi := readN (wrap64 (a + n)) in
  ret (Z.lor lo (Z.shiftl hi (8 * n)) mod 2 ^ (8 * n + 8 * n)).

(** The bytes at the [n] addresses from [a] in [e'] are the little-endian
    bytes of [v], and every other overlay entry is as in [e]. *)
Definition stored_le (n a v : Z) (e e' : A64TestEnv) : Prop :=
  (∀ i, 0 <= i < n →
     modified_memory e' !! wrap64 (a + i) = Some (le_byte i v)) ∧
  (∀ b, ¬ in_span a n b → modified_memory e' !! b = modified_memory e !! b).

(** The ticks a sequence of callbacks reports through [AddTicks]. *)
Fixpoint ticks_charged (cs : list Callback) : Z :=
  match cs with
  | [] => 0
  | CbAddTicks n :: cs' => n + ticks_charged cs'
  | _ :: cs' => ticks_charged cs'
  end.

(** Every [AddTicks] argument of the sequence is a [u64]. *)
Fixpoint ticks_args_u64 (cs : list Callback) : Prop :=
  match cs with
  | [] => True
  | CbAddTicks n :: cs' => is_u64 n ∧ ticks_args_u64 cs'
  | _ :: cs' => ticks_args_u64 cs'
  end.

(** The little-endian value of a list of bytes. *)
Fixpoint le_value (bs : list Z) : Z :=
  match bs with
  | [] => 0
  | b :: bs' => b + 2 ^ 8 * le_value bs'
  end.

(** The bytes a load of [n] bytes at [a] is made of, read one at a time. *)
Definition bytes_read (e : A64TestEnv) (a : Z) (n : nat) : list Z :=
  map (λ i, eval (MemoryRead8 (wrap64 (a + Z.of_nat i))) e) (seq 0 n).

(** * Properties *)

(** ** Running computations *)

Lemma eval_ret {A} (x : A) e : eval (ret x) e = x.
Proof. reflexivity. Qed.

Lemma exec_ret {A} (x : A) e : exec (ret x) e = e.
Proof. reflexivity. Qed.

Lemma eval_gets {A} (f : A64TestEnv → A) e : eval (gets f) e = f e.
Proof. reflexivity. Qed.

Lemma exec_gets {A} (f : A64TestEnv → A) e : exec (gets f) e = e.
Proof. reflexivity. Qed.

Lemma exec_modify f e : exec (modify f) e = f e.
Proof. reflexivity. Qed.

Lemma eval_bind {A B} (m : M A) (f : A → M B) e :
  eval (bind m f) e = eval (f (eval m e)) (exec m e).
Proof. unfold eval, exec, bind. destruct (m e); reflexivity. Qed.

Lemma exec_bind {A B} (m : M A) (f : A → M B) e :
  exec (bind m f) e = exec (f (eval m e)) (exec m e).
Proof. unfold eval, exec, bind. destruct (m e); reflexivity. Qed.

Lemma run_result {A} (m : M A) e : m e = (eval m e, exec m e).
Proof. unfold eval, exec. destruct (m e); reflexivity. Qed.

Create Rewrite HintDb run_m.
#[local] Hint Rewrite @eval_bind @exec_bind @eval_ret @exec_ret
  @eval_gets @exec_gets exec_modify : run_m.

Ltac run_m := autorewrite with run_m.

(** ** Calls that leave the object untouched *)

Lemma read_only_ret {A} (x : A) : read_only (ret x).
Proof. intros e. reflexivity. Qed.

Lemma read_only_gets {A} (f : A64TestEnv → A) : read_only (gets f).
Proof. intros e. reflexivity. Qed.

Lemma read_only_bind {A B} (m : M A) (f : A → M B) :
  read_only m → (∀ x, read_only (f x)) → read_only (bind m f).
Proof. intros Hm Hf e. rewrite exec_bind, Hm. apply Hf. Qed.

Lemma read_only_if {A} (b : bool) (m1 m2 : M A) :
  read_only m1 → read_only m2 → read_only (if b then m1 else m2).
Proof. destruct b; auto. Qed.

Create HintDb read_only discriminated.
#[local] Hint Resolve @read_only_ret @read_only_gets @read_only_if
  : read_only.
#[local] Hint Extern 2 (read_only (bind _ _)) =>
  apply read_only_bind; [| intros ?] : read_only.

Lemma read_only_MemoryReadCode a : read_only (MemoryReadCode a).
Proof. unfold MemoryReadCode. auto 10 with read_only. Qed.

Lemma read_only_MemoryRead8 a : read_only (MemoryRead8 a).
Proof.
  unfold MemoryRead8. apply read_only_bind; [auto with read_only|].
  intros in_code. apply read_only_if; [auto with read_only|].
  apply read_only_bind; [auto with read_only|].
  intros [second|]; auto with read_only.
Qed.
#[local] Hint Resolve read_only_MemoryRead8 : read_only.

Lemma read_only_MemoryRead16 a : read_only (MemoryRead16 a).
Proof. unfold MemoryRead16. auto 10 with read_only. Qed.
#[local] Hint Resolve read_only_MemoryRead16 : read_only.

Lemma read_only_MemoryRead32 a : read_only (MemoryRead32 a).
Proof. unfold MemoryRead32. auto 10 with read_only. Qed.
#[local] Hint Resolve read_only_MemoryRead32 : read_only.

Lemma read_only_MemoryRead64 a : read_only (MemoryRead64 a).
Proof. unfold MemoryRead64. auto 10 with read_only. Qed.
#[local] Hint Resolve read_only_MemoryRead64 : read_only.

Lemma read_only_MemoryRead128 a : read_only (MemoryRead128 a).
Proof. unfold MemoryRead128. auto 10 with read_only. Qed.

Lemma read_only_GetTicksRemaining : read_only GetTicksRemaining.
Proof. unfold GetTicksRemaining. auto with read_only. Qed.

Lemma read_only_GetCNTPCT : read_only GetCNTPCT.
Proof. unfold GetCNTPCT. auto with read_only. Qed.

(** ** What a store does *)

Lemma exec_MemoryWrite8 a v e :
  exec (MemoryWrite8 a v) e =
  set_modified_memory (<[a := v]> (modified_memory e))
    (if IsInCodeMem e a then set_code_mem_modified_by_guest true e else e).
Proof.
  unfold MemoryWrite8. run_m.
  destruct (IsInCodeMem e a); reflexivity.
Qed.

Lemma store_step_refl e : store_step [] e e.
Proof. split; auto. Qed.

Lemma store_step_trans l1 l2 e1 e2 e3 :
  store_step l1 e1 e2 → store_step l2 e2 e3 → store_step (l1 ++ l2) e1 e3.
Proof.
  intros H12 H23. split.
  - rewrite (ss_start _ _ _ H23). apply (ss_start _ _ _ H12).
  - rewrite (ss_code _ _ _ H23). apply (ss_code _ _ _ H12).
  - rewrite (ss_interrupts _ _ _ H23). apply (ss_interrupts _ _ _ H12).
  - intros Hf. apply (ss_flag _ _ _ H23), (ss_flag _ _ _ H12), Hf.
  - intros b Hb. rewrite not_elem_of_app in Hb. destruct Hb as [Hb1 Hb2].
    rewrite (ss_other _ _ _ H23 b Hb2). apply (ss_other _ _ _ H12 b Hb1).
Qed.

Lemma IsInCodeMem_same_code e e' a :
  code_mem_start_address e' = code_mem_start_address e →
  code_mem e' = code_mem e →
  IsInCodeMem e' a = IsInCodeMem e a.
Proof. unfold IsInCodeMem. intros -> ->. reflexivity. Qed.

Lemma store_step_MemoryWrite8 a v e :
  store_step (bytes8 a) e (exec (MemoryWrite8 a v) e).
Proof.
  rewrite exec_MemoryWrite8.
  split; try (destruct (IsInCodeMem e a); reflexivity).
  - destruct (IsInCodeMem e a); simpl; auto.
  - intros b Hb. unfold bytes8 in Hb. rewrite not_elem_of_cons in Hb.
    destruct Hb as [Hb _].
    destruct (IsInCodeMem e a); simpl; rewrite lookup_insert_ne; auto.
Qed.

Lemma store_step_seq {A B} (m1 : M A) (m2 : M B) l1 l2 :
  (∀ e, store_step l1 e (exec m1 e)) →
  (∀ e, store_step l2 e (exec m2 e)) →
  ∀ e, store_step (l1 ++ l2) e (exec (m1 >> m2) e).
Proof.
  intros H1 H2 e. rewrite exec_bind.
  eapply store_step_trans; [apply H1 | apply H2].
Qed.

Lemma store_step_MemoryWrite16 a v e :
  store_step (bytes16 a) e (exec (MemoryWrite16 a v) e).
Proof.
  revert e. apply store_step_seq; intros e; apply store_step_MemoryWrite8.
Qed.

Lemma store_step_MemoryWrite32 a v e :
  store_step (bytes32 a) e (exec (MemoryWrite32 a v) e).
Proof.
  revert e. apply store_step_seq; intros e; apply store_step_MemoryWrite16.
Qed.

Lemma store_step_MemoryWrite64 a v e :
  store_step (bytes64 a) e (exec (MemoryWrite64 a v) e).
Proof.
  revert e. apply store_step_seq; intros e; apply store_step_MemoryWrite32.
Qed.

Lemma store_step_MemoryWrite128 a v e :
  store_step (bytes128 a) e (exec (MemoryWrite128 a v) e).
Proof.
  revert e. apply store_step_seq; intros e; apply store_step_MemoryWrite64.
Qed.

Lemma store_step_read_only {A} (m : M A) e :
  read_only m → store_step [] e (exec (m >> ret tt) e).
Proof.
  intros Hm. rewrite exec_bind, exec_ret, Hm. apply store_step_refl.
Qed.

Lemma store_step_then_ret {A B} (m : M A) (x : B) l e :
  store_step l e (exec m e) → store_step l e (exec (m >> ret x) e).
Proof. intros H. rewrite exec_bind, exec_ret. exact H. Qed.

Lemma exec_AddTicks n e :
  exec (AddTicks n) e =
  set_ticks_left (if n >? ticks_left e then 0
                  else wrap64 (ticks_left e - n)) e.
Proof.
  unfold AddTicks. run_m. destruct (n >? ticks_left e); reflexivity.
Qed.

Lemma store_step_AddTicks n e : store_step [] e (exec (AddTicks n) e).
Proof. rewrite exec_AddTicks. split; auto. Qed.

(** Every callback is a [store_step] on the addresses it writes. *)
Lemma perform_store_step c e :
  store_step (written_addresses c) e (exec (perform c) e).
Proof.
  destruct c; simpl;
    try (apply store_step_read_only;
         first [ apply read_only_MemoryReadCode | apply read_only_MemoryRead8
               | apply read_only_MemoryRead16 | apply read_only_MemoryRead32
               | apply read_only_MemoryRead64 | apply read_only_MemoryRead128
               | apply read_only_GetTicksRemaining
               | apply read_only_GetCNTPCT ]);
    try (unfold MemoryWriteExclusive8, MemoryWriteExclusive16,
           MemoryWriteExclusive32, MemoryWriteExclusive64,
           MemoryWriteExclusive128; do 2 apply store_step_then_ret);
    first [ apply store_step_MemoryWrite8 | apply store_step_MemoryWrite16
          | apply store_step_MemoryWrite32 | apply store_step_MemoryWrite64
          | apply store_step_MemoryWrite128 | apply store_step_refl
          | apply store_step_AddTicks ].
Qed.

Lemma run_store_step cs e :
  store_step (concat (map written_addresses cs)) e (run cs e).
Proof.
  revert e. induction cs as [|c cs IH]; intros e; simpl.
  - apply store_step_refl.
  - eapply store_step_trans; [apply perform_store_step | apply IH].
Qed.

Lemma run_IsInCodeMem cs e a : IsInCodeMem (run cs e) a = IsInCodeMem e a.
Proof.
  destruct (run_store_step cs e).
  apply IsInCodeMem_same_code; assumption.
Qed.

(** ** Reads and queries (C10) *)

(** C10. Every read and query callback -- the instruction fetch, the 8, 16,
    32, 64 and 128 bit reads, the remaining-ticks query and the virtual
    counter -- returns with the whole object (code region, overlay,
    self-modification flag, tick budget and interrupt list) exactly as it
    was. *)
Theorem reads_and_queries_preserve_state (e : A64TestEnv) (a : Z) :
  exec (MemoryReadCode a) e = e ∧
  exec (MemoryRead8 a) e = e ∧
  exec (MemoryRead16 a) e = e ∧
  exec (MemoryRead32 a) e = e ∧
  exec (MemoryRead64 a) e = e ∧
  exec (MemoryRead128 a) e = e ∧
  exec GetTicksRemaining e = e ∧
  exec GetCNTPCT e = e.
Proof.
  split; [apply read_only_MemoryReadCode|].
  split; [apply read_only_MemoryRead8|].
  split; [apply read_only_MemoryRead16|].
  split; [apply read_only_MemoryRead32|].
  split; [apply read_only_MemoryRead64|].
  split; [apply read_only_MemoryRead128|].
  split; [apply read_only_GetTicksRemaining|].
  apply read_only_GetCNTPCT.
Qed.

(** ** Exclusive stores (C5) *)

Lemma then_ret_true {A} (m : M A) e : (m >> ret true) e = (true, exec m e).
Proof. rewrite run_result. run_m. reflexivity. Qed.

(** C5. Each exclusive store (8, 16, 32, 64, 128 bits) returns [true] and
    leaves the object in exactly the state the plain store of the same
    width leaves it in, whatever the expected value is. *)
Theorem exclusive_store_is_plain_store
    (e : A64TestEnv) (a v x : Z) (vv xx : Vector) :
  MemoryWriteExclusive8 a v x e = (true, exec (MemoryWrite8 a v) e) ∧
  MemoryWriteExclusive16 a v x e = (true, exec (MemoryWrite16 a v) e) ∧
  MemoryWriteExclusive32 a v x e = (true, exec (MemoryWrite32 a v) e) ∧
  MemoryWriteExclusive64 a v x e = (true, exec (MemoryWrite64 a v) e) ∧
  MemoryWriteExclusive128 a vv xx e = (true, exec (MemoryWrite128 a vv) e).
Proof.
  unfold MemoryWriteExclusive8, MemoryWriteExclusive16,
    MemoryWriteExclusive32, MemoryWriteExclusive64, MemoryWriteExclusive128.
  rewrite !then_ret_true. auto.
Qed.

(** ** Event callbacks (C8) *)

(** C8, counterexample. On the environment of [main], none of the three
    event callbacks appends anything: the interrupt list stays empty. *)
Lemma event_callbacks_append_nothing :
  ¬ appends_record (InterpreterFallback 0 1) main_env ∧
  ¬ appends_record (CallSVC 0) main_env ∧
  ¬ appends_record (ExceptionRaised 0 tt) main_env.
Proof.
  repeat split; intros [record H]; vm_compute in H; discriminate H.
Qed.

(** C8, amended. Each of the three event callbacks returns normally and
    leaves the whole object unchanged: code region, overlay,
    self-modification flag and tick budget, and the interrupt list too (no
    record is appended). *)
Theorem event_callbacks_do_nothing
    {Exception : Type} (e : A64TestEnv) (pc n swi : Z) (x : Exception) :
  InterpreterFallback pc n e = (tt, e) ∧
  CallSVC swi e = (tt, e) ∧
  ExceptionRaised pc x e = (tt, e).
Proof. repeat split. Qed.

(** ** The self-modification flag (C3) *)

Lemma MemoryWrite8_sets_flag e a v :
  IsInCodeMem e a = true →
  code_mem_modified_by_guest (exec (MemoryWrite8 a v) e) = true.
Proof. intros H. rewrite exec_MemoryWrite8, H. reflexivity. Qed.

(** A fresh object has the flag clear; a byte store to an address that
    passes [IsInCodeMem] sets it; and once it is set it is still set after
    any sequence of callbacks of the environment. *)
Lemma flag_clear_set_kept
    (e : A64TestEnv) (a v : Z) (cs : list Callback) :
  code_mem_modified_by_guest A64TestEnv_new = false ∧
  (IsInCodeMem e a = true →
   code_mem_modified_by_guest (exec (MemoryWrite8 a v) e) = true) ∧
  (code_mem_modified_by_guest e = true →
   code_mem_modified_by_guest (run cs e) = true).
Proof.
  split; [reflexivity|]. split.
  - apply MemoryWrite8_sets_flag.
  - apply (ss_flag _ _ _ (run_store_step cs e)).
Qed.

(** ** The tick budget (C4) *)

Lemma ticks_left_AddTicks n e :
  is_u64 (ticks_left e) → is_u64 n →
  ticks_left (exec (AddTicks n) e) = Z.max 0 (ticks_left e - n).
Proof.
  unfold is_u64. intros Ht Hn. rewrite exec_AddTicks. simpl.
  destruct (Z.gtb_spec n (ticks_left e)) as [H|H]; [lia|].
  unfold wrap64. rewrite Z.mod_small; lia.
Qed.

(** C4. [AddTicks] saturates the unsigned 64-bit budget: a charge above
    the remaining budget leaves exactly zero, any other charge is
    subtracted; from budget [B], charging [n1] then [n2] leaves
    [max 0 (B - n1 - n2)]; the budget stays a [u64] (never negative, no
    wrap-around). *)
Theorem AddTicks_saturates (e : A64TestEnv) (n1 n2 : Z) :
  is_u64 (ticks_left e) → is_u64 n1 → is_u64 n2 →
  let B := ticks_left e in
  let e1 := exec (AddTicks n1) e in
  let e2 := exec (AddTicks n2) e1 in
  ticks_left e1 = (if n1 >? B then 0 else B - n1) ∧
  ticks_left e2 = Z.max 0 (B - n1 - n2) ∧
  is_u64 (ticks_left e1) ∧ is_u64 (ticks_left e2).
Proof.
  intros HB H1 H2. cbv zeta.
  pose proof (ticks_left_AddTicks n1 e HB H1) as E1.
  assert (U1 : is_u64 (ticks_left (exec (AddTicks n1) e)))
    by (rewrite E1; unfold is_u64 in *; lia).
  pose proof (ticks_left_AddTicks n2 _ U1 H2) as E2.
  rewrite E2, E1. unfold is_u64 in *.
  destruct (Z.gtb_spec n1 (ticks_left e)); lia.
Qed.

(** C4 at work: from [main]'s budget of 100, charging 60 leaves 40 and
    charging 70 more leaves 0. *)
Lemma AddTicks_saturates_witness :
  ticks_left (exec (AddTicks 70) (exec (AddTicks 60) main_env)) = 0 ∧
  ticks_left (exec (AddTicks 60) main_env) = 40.
Proof.
  destruct (AddTicks_saturates main_env 60 70) as (H1 & H2 & _);
    [range_closed ..|].
  split; [exact H2 | exact H1].
Defined.

(** ** Instruction fetch (C6, C2) *)

Ltac unwrap :=
  unfold wrap8, wrap16, wrap32, wrap64, is_u8, is_u64 in *;
  change (2 ^ 8) with 256 in *;
  change (2 ^ 16) with 65536 in *;
  change (2 ^ 32) with 4294967296 in *;
  change (2 ^ 64) with 18446744073709551616 in *.

Ltac lia_mod := unwrap; Z.to_euclidean_division_equations; lia.

(** A guarded access stays inside the word array: the offset does not
    wrap and the word index is below [code_mem.size()]. *)
Lemma IsInCodeMem_index e a :
  is_u64 (code_mem_start_address e) →
  IsInCodeMem e a = true →
  wrap64 (a - code_mem_start_address e) = a - code_mem_start_address e ∧
  0 <= (a - code_mem_start_address e) / 4 < Z.of_nat (length (code_mem e)).
Proof.
  unfold IsInCodeMem. intros Hs Hin.
  apply andb_true_iff in Hin as [Hlo Hhi].
  apply Z.leb_le in Hlo. apply Z.ltb_lt in Hhi.
  pose proof (Nat2Z.is_nonneg (length (code_mem e))) as Hlen.
  revert Hs Hlo Hhi Hlen. generalize (Z.of_nat (length (code_mem e))) as n.
  generalize (code_mem_start_address e) as s.
  intros. lia_mod.
Qed.

Lemma eval_MemoryReadCode a e :
  eval (MemoryReadCode a) e =
  if IsInCodeMem e a
  then Some (code_word (code_mem e)
               (wrap64 (a - code_mem_start_address e) / 4))
  else Some 0x14000000.
Proof.
  unfold MemoryReadCode. run_m. destruct (IsInCodeMem e a); reflexivity.
Qed.

(** At an address that fails [IsInCodeMem] the fetch returns the
    branch-to-self word [0x14000000] whatever callbacks ran before; at one
    that passes it returns the word stored at index
    [(a - code_mem_start_address) / 4], aligned or not. *)
Lemma fetch_by_guard
    (e : A64TestEnv) (cs : list Callback) (a : Z) :
  (IsInCodeMem e a = false →
   eval (MemoryReadCode a) (run cs e) = Some 0x14000000) ∧
  (IsInCodeMem e a = true → is_u64 (code_mem_start_address e) →
   ∃ w, code_mem e !! Z.to_nat ((a - code_mem_start_address e) / 4) = Some w
        ∧ eval (MemoryReadCode a) (run cs e) = Some w).
Proof.
  pose proof (run_store_step cs e) as Hrun.
  rewrite eval_MemoryReadCode, run_IsInCodeMem.
  rewrite (ss_code _ _ _ Hrun), (ss_start _ _ _ Hrun).
  split; intros Hin; rewrite Hin; [reflexivity|].
  intros Hs. destruct (IsInCodeMem_index e a Hs Hin) as [Hoff Hidx].
  rewrite Hoff. unfold code_word.
  destruct (lookup_lt_is_Some_2 (code_mem e)
              (Z.to_nat ((a - code_mem_start_address e) / 4))) as [w Hw];
    [lia|].
  exists w. rewrite Hw. auto.
Qed.

(** C2, counterexample. Storing [0xFF] at address 0 of the program of
    [main] and fetching address 0 still yields [0xD2800000], whose low byte
    is [0x00]. *)
Lemma fetch_ignores_overlay :
  IsInCodeMem main_env 0 = true ∧
  eval (MemoryReadCode 0) (exec (MemoryWrite8 0 0xFF) main_env)
    = Some 0xD2800000 ∧
  ¬ fetch_reflects_store main_env 0 0xFF.
Proof.
  split; [reflexivity|]. split; [reflexivity|].
  intros (w & Hw & Hbyte & _).
  vm_compute in Hw. injection Hw as <-. vm_compute in Hbyte. discriminate.
Qed.

(** A byte store leaves every fetch as it was: the fetch reads the word
    array only, never the overlay. *)
Lemma fetch_after_MemoryWrite8 (e : A64TestEnv) (a v a' : Z) :
  eval (MemoryReadCode a') (exec (MemoryWrite8 a v) e)
  = eval (MemoryReadCode a') e.
Proof.
  rewrite !eval_MemoryReadCode.
  destruct (store_step_MemoryWrite8 a v e) as [Hs Hc _ _ _].
  rewrite (IsInCodeMem_same_code _ _ _ Hs Hc), Hs, Hc. reflexivity.
Qed.

(** ** Byte reads (C9, C1) *)

Lemma eval_MemoryRead8 a e :
  eval (MemoryRead8 a) e =
  if IsInCodeMem e a
  then code_byte (code_mem e) (wrap64 (a - code_mem_start_address e))
  else default (wrap8 a) (modified_memory e !! a).
Proof.
  unfold MemoryRead8. run_m. destruct (IsInCodeMem e a); [reflexivity|].
  run_m. destruct (modified_memory e !! a); reflexivity.
Qed.

(** Reading after a [store_step]: a code byte is what it was; outside the
    Code Region an address that was not touched reads as before. *)
Lemma eval_MemoryRead8_store_step l e e' a :
  store_step l e e' →
  IsInCodeMem e a = true ∨ a ∉ l →
  eval (MemoryRead8 a) e' = eval (MemoryRead8 a) e.
Proof.
  intros Hstep Ha. rewrite !eval_MemoryRead8.
  rewrite (IsInCodeMem_same_code e e' a)
    by (apply (ss_start _ _ _ Hstep) || apply (ss_code _ _ _ Hstep)).
  rewrite (ss_code _ _ _ Hstep), (ss_start _ _ _ Hstep).
  destruct (IsInCodeMem e a); [reflexivity|].
  destruct Ha as [Ha|Ha]; [discriminate|].
  rewrite (ss_other _ _ _ Hstep a Ha). reflexivity.
Qed.

Lemma not_written_concat (a : Z) cs :
  Forall (λ c, a ∉ written_addresses c) cs →
  a ∉ concat (map written_addresses cs).
Proof.
  induction 1 as [|c cs Hc _ IH]; simpl.
  - apply not_elem_of_nil.
  - rewrite not_elem_of_app. auto.
Qed.

(** C9. An address outside the Code Region that has no overlay entry and
    that no later callback stores to reads as its own low 8 bits. *)
Theorem unwritten_byte_is_low_address_bits
    (e : A64TestEnv) (cs : list Callback) (a : Z) :
  IsInCodeMem e a = false →
  modified_memory e !! a = None →
  Forall (λ c, a ∉ written_addresses c) cs →
  eval (MemoryRead8 a) (run cs e) = a mod 256.
Proof.
  intros Hout Hnone Hcs.
  rewrite (eval_MemoryRead8_store_step _ e _ a (run_store_step cs e))
    by (right; apply not_written_concat, Hcs).
  rewrite eval_MemoryRead8, Hout, Hnone. reflexivity.
Qed.

(** C9 at work: address 1000 is skipped by the stores around it and reads
    as [1000 mod 256 = 232]. *)
Lemma unwritten_byte_is_low_address_bits_witness :
  eval (MemoryRead8 1000)
    (run [CbMemoryWrite32 996 0xCAFEBABE; CbMemoryWrite16 1001 7;
          CbMemoryRead8 1000; CbAddTicks 1] main_env) = 232.
Proof.
  apply (unwritten_byte_is_low_address_bits main_env
           [CbMemoryWrite32 996 0xCAFEBABE; CbMemoryWrite16 1001 7;
            CbMemoryRead8 1000; CbAddTicks 1] 1000).
  - reflexivity.
  - reflexivity.
  - repeat constructor; compute_done.
Defined.

(** C1, counterexample. Address 0 is inside the Code Region of [main]'s
    program; after storing [0xFF] there, the read still returns the low
    byte [0x00] of the first instruction word. *)
Lemma code_byte_read_ignores_overlay :
  IsInCodeMem main_env 0 = true ∧
  modified_memory (exec (MemoryWrite8 0 0xFF) main_env) !! 0 = Some 0xFF ∧
  eval (MemoryRead8 0) (exec (MemoryWrite8 0 0xFF) main_env) = 0 ∧
  ¬ read_returns_stored main_env 0 0xFF.
Proof.
  split; [reflexivity|]. split; [reflexivity|]. split; [reflexivity|].
  unfold read_returns_stored. vm_compute. discriminate.
Qed.

(** After a byte store at [a], the read at [a] returns the stored value
    when [a] fails [IsInCodeMem], and what it returned before the store
    when [a] passes it. *)
Lemma read_after_store_by_guard (e : A64TestEnv) (a v : Z) :
  eval (MemoryRead8 a) (exec (MemoryWrite8 a v) e) =
  if IsInCodeMem e a then eval (MemoryRead8 a) e else v.
Proof.
  destruct (IsInCodeMem e a) eqn:Hin.
  - apply (eval_MemoryRead8_store_step _ _ _ _ (store_step_MemoryWrite8 a v e)).
    left. exact Hin.
  - rewrite eval_MemoryRead8.
    destruct (store_step_MemoryWrite8 a v e) as [Hs Hc _ _ _].
    rewrite (IsInCodeMem_same_code _ _ _ Hs Hc), Hin.
    rewrite exec_MemoryWrite8, Hin. simpl.
    rewrite lookup_insert_eq. reflexivity.
Qed.

(** ** Multi-byte composition (C7) *)

Lemma exec_MemoryRead8 a e : exec (MemoryRead8 a) e = e.
Proof. apply read_only_MemoryRead8. Qed.

Lemma exec_MemoryRead16 a e : exec (MemoryRead16 a) e = e.
Proof. apply read_only_MemoryRead16. Qed.

Lemma eval_MemoryRead16 a e :
  eval (MemoryRead16 a) e =
  wrap16 (Z.lor (eval (MemoryRead8 a) e)
            (Z.shiftl (eval (MemoryRead8 (wrap64 (a + 1))) e) 8)).
Proof.
  unfold MemoryRead16. run_m. rewrite !exec_MemoryRead8. reflexivity.
Qed.

Lemma eval_MemoryRead32 a e :
  eval (MemoryRead32 a) e =
  wrap32 (Z.lor (eval (MemoryRead16 a) e)
            (Z.shiftl (eval (MemoryRead16 (wrap64 (a + 2))) e) 16)).
Proof.
  unfold MemoryRead32. run_m. rewrite !exec_MemoryRead16. reflexivity.
Qed.

Lemma modified_memory_MemoryWrite8 a v e :
  modified_memory (exec (MemoryWrite8 a v) e) = <[a := v]> (modified_memory e).
Proof. rewrite exec_MemoryWrite8. reflexivity. Qed.

Lemma IsInCodeMem_MemoryWrite8 a v e b :
  IsInCodeMem (exec (MemoryWrite8 a v) e) b = IsInCodeMem e b.
Proof.
  destruct (store_step_MemoryWrite8 a v e) as [Hs Hc _ _ _].
  apply IsInCodeMem_same_code; assumption.
Qed.

(** A low part below [2^n] and a high part shifted by [n] do not overlap,
    so [|] adds them. *)
Lemma lor_shiftl_add lo hi n :
  0 <= n → 0 <= lo < 2 ^ n → 0 <= hi →
  Z.lor lo (Z.shiftl hi n) = lo + hi * 2 ^ n.
Proof.
  intros Hn Hlo Hhi.
  assert (Hdisj : Z.land lo (Z.shiftl hi n) = 0).
  { apply Z.bits_inj'. intros i Hi.
    rewrite Z.land_spec, Z.bits_0.
    destruct (Z.lt_ge_cases i n) as [Hlt|Hge].
    - rewrite Z.shiftl_spec_low by assumption. apply andb_false_r.
    - rewrite <- (Z.mod_small lo (2 ^ n)) by assumption.
      rewrite Z.mod_pow2_bits_high by lia. reflexivity. }
  rewrite <- Z.lxor_lor by assumption.
  rewrite <- Z.add_nocarry_lxor by assumption.
  rewrite Z.shiftl_mul_pow2 by assumption. reflexivity.
Qed.

Lemma wrap64_add_add a i j : wrap64 (wrap64 (a + i) + j) = wrap64 (a + (i + j)).
Proof.
  unfold wrap64. rewrite Zplus_mod_idemp_l. f_equal. lia.
Qed.

(** C7, counterexample. Over the program of [main] (which occupies
    addresses 0 to 27) neither direction holds at address 0: the byte reads
    and the 32-bit read return the instruction word [0xD2800000]. *)
Lemma code_region_breaks_round_trip :
  eval (MemoryRead8 0) (exec (MemoryWrite32 0 0x11223344) main_env) = 0 ∧
  le_byte 0 0x11223344 = 0x44 ∧
  ¬ store32_then_bytes main_env 0 0x11223344 ∧
  ¬ bytes_then_load32 main_env 0 0x44 0x33 0x22 0x11.
Proof.
  split; [reflexivity|]. split; [reflexivity|]. split.
  - intros H. specialize (H 0 ltac:(lia)). vm_compute in H. discriminate H.
  - unfold bytes_then_load32. vm_compute. discriminate.
Qed.

Lemma le_bytes_of_u32_store v :
  wrap8 (wrap16 v) = le_byte 0 v ∧
  wrap8 (Z.shiftr (wrap16 v) 8) = le_byte 1 v ∧
  wrap8 (wrap16 (Z.shiftr v 16)) = le_byte 2 v ∧
  wrap8 (Z.shiftr (wrap16 (Z.shiftr v 16)) 8) = le_byte 3 v.
Proof.
  unfold le_byte. rewrite !Z.shiftr_div_pow2 by lia.
  change (2 ^ (8 * 0)) with 1. change (2 ^ (8 * 1)) with 256.
  change (2 ^ (8 * 2)) with 65536. change (2 ^ (8 * 3)) with 16777216.
  unwrap. repeat split; Z.to_euclidean_division_equations; lia.
Qed.

Lemma modified_memory_MemoryWrite32 a v e :
  modified_memory (exec (MemoryWrite32 a v) e) =
  <[wrap64 (a + 3) := le_byte 3 v]>
    (<[wrap64 (a + 2) := le_byte 2 v]>
       (<[wrap64 (a + 1) := le_byte 1 v]>
          (<[a := le_byte 0 v]> (modified_memory e)))).
Proof.
  destruct (le_bytes_of_u32_store v) as (E0 & E1 & E2 & E3).
  unfold MemoryWrite32, MemoryWrite16. run_m.
  rewrite !modified_memory_MemoryWrite8, wrap64_add_add.
  rewrite E0, E1, E2, E3. reflexivity.
Qed.

Lemma byte_addresses_distinct a :
  is_u64 a →
  wrap64 (a + 0) = a ∧
  a ≠ wrap64 (a + 1) ∧ a ≠ wrap64 (a + 2) ∧ a ≠ wrap64 (a + 3) ∧
  wrap64 (a + 1) ≠ wrap64 (a + 2) ∧ wrap64 (a + 1) ≠ wrap64 (a + 3) ∧
  wrap64 (a + 2) ≠ wrap64 (a + 3).
Proof. intros Ha. unwrap. repeat split; Z.to_euclidean_division_equations; lia. Qed.

Lemma eval_MemoryRead8_outside e a :
  IsInCodeMem e a = false →
  eval (MemoryRead8 a) e = default (wrap8 a) (modified_memory e !! a).
Proof. intros H. rewrite eval_MemoryRead8, H. reflexivity. Qed.

Ltac lookup_chain :=
  repeat first [ rewrite lookup_insert_eq
               | rewrite lookup_insert_ne by congruence ].

(** C7, amended. For a [u64] address [a] none of whose four byte
    addresses [a .. a+3] lies inside the Code Region: a 32-bit store of [v]
    followed by the four byte reads yields the little-endian bytes of [v],
    and four byte stores followed by one 32-bit read yields
    [b0 + b1 * 2^8 + b2 * 2^16 + b3 * 2^24]. *)
Theorem le_round_trip_outside_code
    (e : A64TestEnv) (a v b0 b1 b2 b3 : Z) :
  is_u64 a →
  Forall (λ b, IsInCodeMem e b = false)
    [a; wrap64 (a + 1); wrap64 (a + 2); wrap64 (a + 3)] →
  is_u8 b0 → is_u8 b1 → is_u8 b2 → is_u8 b3 →
  store32_then_bytes e a v ∧ bytes_then_load32 e a b0 b1 b2 b3.
Proof.
  intros Ha Hout H0 H1 H2 H3.
  destruct (byte_addresses_distinct a Ha) as (A0 & N01 & N02 & N03 & N12 & N13 & N23).
  apply Forall_cons in Hout as [O0 Hout]. apply Forall_cons in Hout as [O1 Hout].
  apply Forall_cons in Hout as [O2 Hout]. apply Forall_cons in Hout as [O3 _].
  split.
  - intros i Hi.
    assert (Hcode : ∀ b, IsInCodeMem (exec (MemoryWrite32 a v) e) b
                         = IsInCodeMem e b).
    { intros b. destruct (store_step_MemoryWrite32 a v e) as [Hs Hc _ _ _].
      apply IsInCodeMem_same_code; assumption. }
    assert (Hcases : i = 0 ∨ i = 1 ∨ i = 2 ∨ i = 3) by lia.
    destruct Hcases as [-> | [-> | [-> | ->]]];
      rewrite ?A0;
      (rewrite eval_MemoryRead8_outside by (rewrite Hcode; assumption));
      rewrite modified_memory_MemoryWrite32; lookup_chain; reflexivity.
  - unfold bytes_then_load32.
    set (e' := exec _ e).
    assert (Hcode : ∀ b, IsInCodeMem e' b = IsInCodeMem e b).
    { intros b. unfold e'. run_m. rewrite !IsInCodeMem_MemoryWrite8.
      reflexivity. }
    assert (Hmem : modified_memory e' =
              <[wrap64 (a + 3) := b3]> (<[wrap64 (a + 2) := b2]>
                (<[wrap64 (a + 1) := b1]> (<[a := b0]> (modified_memory e))))).
    { unfold e'. run_m. rewrite !modified_memory_MemoryWrite8. reflexivity. }
    rewrite eval_MemoryRead32, !eval_MemoryRead16, wrap64_add_add.
    change (2 + 1) with 3.
    rewrite !eval_MemoryRead8_outside by (rewrite Hcode; assumption).
    rewrite Hmem. lookup_chain. simpl.
    rewrite (lor_shiftl_add b0 b1 8) by (unfold is_u8 in *; lia).
    rewrite (lor_shiftl_add b2 b3 8) by (unfold is_u8 in *; lia).
    assert (W01 : wrap16 (b0 + b1 * 2 ^ 8) = b0 + b1 * 2 ^ 8)
      by (unfold wrap16; apply Z.mod_small; unwrap; lia).
    assert (W23 : wrap16 (b2 + b3 * 2 ^ 8) = b2 + b3 * 2 ^ 8)
      by (unfold wrap16; apply Z.mod_small; unwrap; lia).
    rewrite W01, W23.
    rewrite lor_shiftl_add by (unwrap; lia).
    unfold wrap32. rewrite Z.mod_small by (unwrap; lia).
    unwrap. lia.
Qed.

(** C7 (amended) at work at address 4096, past [main]'s program. *)
Lemma le_round_trip_outside_code_witness :
  store32_then_bytes main_env 4096 0x11223344 ∧
  bytes_then_load32 main_env 4096 0x44 0x33 0x22 0x11.
Proof.
  apply (le_round_trip_outside_code main_env 4096 0x11223344
           0x44 0x33 0x22 0x11);
    [ range_closed
    | repeat (constructor; [vm_compute; reflexivity|]); constructor
    | range_closed .. ].
Defined.

(** ** The program of [main], evaluated *)

Example main_env_code_bytes :
  map (λ a, eval (MemoryRead8 a) main_env) [0; 1; 2; 3; 27; 28]
  = [0x00; 0x00; 0x80; 0xD2; 0x54; 28].
Proof. reflexivity. Qed.

Example main_env_read32 : eval (MemoryRead32 4) main_env = 0xD2800001.
Proof. reflexivity. Qed.

Example main_env_read_across_end :
  eval (MemoryRead32 26) main_env = 0x1D1C54FF.
Proof. reflexivity. Qed.

Example main_env_counter : eval GetCNTPCT main_env = 0x10000000000 - 100.
Proof. reflexivity. Qed.

Example store32_load32_round_trip :
  eval (MemoryRead32 4096) (exec (MemoryWrite32 4096 0x11223344) main_env)
  = 0x11223344.
Proof. vm_compute. reflexivity. Qed.

(** * Further properties of the callbacks *)

(** ** The extent of the Code Region *)

Lemma IsInCodeMem_bounds e a :
  IsInCodeMem e a = true ↔
  code_mem_start_address e <= a
  < wrap64 (code_mem_start_address e
            + wrap64 (Z.of_nat (length (code_mem e)) * 4)).
Proof.
  unfold IsInCodeMem. rewrite andb_true_iff, Z.leb_le, Z.ltb_lt. reflexivity.
Qed.

(** X1. When the region ends below [2^64], [IsInCodeMem] is membership in
    [start, start + 4 * size). *)
Theorem IsInCodeMem_iff_in_range (e : A64TestEnv) (a : Z) :
  is_u64 (code_mem_start_address e) →
  code_mem_start_address e + 4 * Z.of_nat (length (code_mem e)) < 2 ^ 64 →
  (IsInCodeMem e a = true ↔
   code_mem_start_address e <= a
   < code_mem_start_address e + 4 * Z.of_nat (length (code_mem e))).
Proof.
  intros Hs Hend. rewrite IsInCodeMem_bounds.
  pose proof (Nat2Z.is_nonneg (length (code_mem e))) as Hlen.
  revert Hs Hend Hlen. generalize (Z.of_nat (length (code_mem e))) as n.
  generalize (code_mem_start_address e) as s. intros s n Hs Hend Hlen.
  assert (E : wrap64 (s + wrap64 (n * 4)) = s + 4 * n) by lia_mod.
  rewrite E. reflexivity.
Qed.

Lemma IsInCodeMem_iff_in_range_witness :
  IsInCodeMem main_env 27 = true ↔ 0 <= 27 < 0 + 4 * 7.
Proof.
  apply (IsInCodeMem_iff_in_range main_env 27);
    [range_closed | vm_compute; reflexivity].
Defined.

(** X2. When the region reaches or crosses [2^64], the upper bound computed in
    [u64] wraps below the start address and no address at all is inside:
    every fetch, even at the start address, returns the sentinel. *)
Theorem region_past_top_is_empty (e : A64TestEnv) (a : Z) :
  is_u64 (code_mem_start_address e) →
  4 * Z.of_nat (length (code_mem e)) < 2 ^ 64 →
  2 ^ 64 <= code_mem_start_address e + 4 * Z.of_nat (length (code_mem e)) →
  IsInCodeMem e a = false ∧ eval (MemoryReadCode a) e = Some 0x14000000.
Proof.
  intros Hs Hlen Hend.
  assert (Hout : IsInCodeMem e a = false).
  { apply not_true_is_false. rewrite IsInCodeMem_bounds.
    revert Hs Hlen Hend. generalize (Z.of_nat (length (code_mem e))) as n.
    generalize (code_mem_start_address e) as s. intros s n Hs Hlen Hend.
    lia_mod. }
  split; [exact Hout|]. rewrite eval_MemoryReadCode, Hout. reflexivity.
Qed.

Lemma region_past_top_is_empty_witness :
  let e := {| ticks_left := 0; code_mem_modified_by_guest := false;
              code_mem_start_address := 0xFFFFFFFFFFFFFFF8;
              code_mem := [0xD2800000; 0x14000000];
              modified_memory := ∅; interrupts := [] |} in
  IsInCodeMem e 0xFFFFFFFFFFFFFFF8 = false ∧
  eval (MemoryReadCode 0xFFFFFFFFFFFFFFF8) e = Some 0x14000000.
Proof.
  intros e. apply (region_past_top_is_empty e 0xFFFFFFFFFFFFFFF8);
    [range_closed | vm_compute; reflexivity | vm_compute; discriminate].
Defined.

(** ** The exact effect of stores on the flag and on the overlay keys *)

Lemma store_effect_refl e : store_effect [] e e.
Proof.
  split; [apply store_step_refl | simpl; rewrite orb_false_r; reflexivity|].
  rewrite list_to_set_nil, (right_id_L ∅ (∪)). reflexivity.
Qed.

Lemma existsb_IsInCodeMem_same e e' l :
  code_mem_start_address e' = code_mem_start_address e →
  code_mem e' = code_mem e →
  existsb (IsInCodeMem e') l = existsb (IsInCodeMem e) l.
Proof.
  intros Hs Hc. induction l as [|b l IH]; simpl; [reflexivity|].
  rewrite IH, (IsInCodeMem_same_code _ _ _ Hs Hc). reflexivity.
Qed.

Lemma store_effect_trans l1 l2 e1 e2 e3 :
  store_effect l1 e1 e2 → store_effect l2 e2 e3 →
  store_effect (l1 ++ l2) e1 e3.
Proof.
  intros [S12 F12 D12] [S23 F23 D23]. split.
  - eapply store_step_trans; eassumption.
  - rewrite F23, F12, existsb_app, orb_assoc.
    rewrite (existsb_IsInCodeMem_same e1 e2 l2
               (ss_start _ _ _ S12) (ss_code _ _ _ S12)).
    reflexivity.
  - rewrite D23, D12, list_to_set_app_L, (assoc_L (∪)). reflexivity.
Qed.

Lemma store_effect_MemoryWrite8 a v e :
  store_effect (bytes8 a) e (exec (MemoryWrite8 a v) e).
Proof.
  split; [apply store_step_MemoryWrite8 | |];
    rewrite exec_MemoryWrite8; unfold bytes8; simpl.
  - destruct (IsInCodeMem e a), (code_mem_modified_by_guest e); reflexivity.
  - rewrite (right_id_L ∅ (∪)).
    destruct (IsInCodeMem e a); simpl; rewrite dom_insert_L;
      apply (comm_L (∪)).
Qed.

Lemma store_effect_seq {A B} (m1 : M A) (m2 : M B) l1 l2 :
  (∀ e, store_effect l1 e (exec m1 e)) →
  (∀ e, store_effect l2 e (exec m2 e)) →
  ∀ e, store_effect (l1 ++ l2) e (exec (m1 >> m2) e).
Proof.
  intros H1 H2 e. rewrite exec_bind.
  eapply store_effect_trans; [apply H1 | apply H2].
Qed.

Lemma store_effect_MemoryWrite16 a v e :
  store_effect (bytes16 a) e (exec (MemoryWrite16 a v) e).
Proof.
  revert e. apply store_effect_seq; intros e; apply store_effect_MemoryWrite8.
Qed.

Lemma store_effect_MemoryWrite32 a v e :
  store_effect (bytes32 a) e (exec (MemoryWrite32 a v) e).
Proof.
  revert e. apply store_effect_seq; intros e; apply store_effect_MemoryWrite16.
Qed.

Lemma store_effect_MemoryWrite64 a v e :
  store_effect (bytes64 a) e (exec (MemoryWrite64 a v) e).
Proof.
  revert e. apply store_effect_seq; intros e; apply store_effect_MemoryWrite32.
Qed.

Lemma store_effect_MemoryWrite128 a v e :
  store_effect (bytes128 a) e (exec (MemoryWrite128 a v) e).
Proof.
  revert e. apply store_effect_seq; intros e; apply store_effect_MemoryWrite64.
Qed.

Lemma store_effect_unchanged {A} (m : M A) e :
  exec m e = e → store_effect [] e (exec (m >> ret tt) e).
Proof.
  intros Hm. rewrite exec_bind, exec_ret, Hm. apply store_effect_refl.
Qed.

Lemma store_effect_then_ret {A B} (m : M A) (x : B) l e :
  store_effect l e (exec m e) → store_effect l e (exec (m >> ret x) e).
Proof. intros H. rewrite exec_bind, exec_ret. exact H. Qed.

Lemma store_effect_AddTicks n e : store_effect [] e (exec (AddTicks n) e).
Proof.
  rewrite exec_AddTicks. split; [split; auto | |]; simpl.
  - rewrite orb_false_r. reflexivity.
  - rewrite (right_id_L ∅ (∪)). reflexivity.
Qed.

Lemma perform_store_effect c e :
  store_effect (written_addresses c) e (exec (perform c) e).
Proof.
  destruct c; simpl;
    try (apply store_effect_unchanged;
         first [ apply read_only_MemoryReadCode | apply read_only_MemoryRead8
               | apply read_only_MemoryRead16 | apply read_only_MemoryRead32
               | apply read_only_MemoryRead64 | apply read_only_MemoryRead128
               | apply read_only_GetTicksRemaining
               | apply read_only_GetCNTPCT ]);
    try (unfold MemoryWriteExclusive8, MemoryWriteExclusive16,
           MemoryWriteExclusive32, MemoryWriteExclusive64,
           MemoryWriteExclusive128; do 2 apply store_effect_then_ret);
    first [ apply store_effect_MemoryWrite8 | apply store_effect_MemoryWrite16
          | apply store_effect_MemoryWrite32 | apply store_effect_MemoryWrite64
          | apply store_effect_MemoryWrite128 | apply store_effect_refl
          | apply store_effect_AddTicks ].
Qed.

Lemma run_store_effect cs e :
  store_effect (concat (map written_addresses cs)) e (run cs e).
Proof.
  revert e. induction cs as [|c cs IH]; intros e; simpl.
  - apply store_effect_refl.
  - eapply store_effect_trans; [apply perform_store_effect | apply IH].
Qed.

(** X3. After any sequence of callbacks the self-modification flag is its old
    value or-ed with "some byte address written by a store of the sequence
    passes [IsInCodeMem]": reads, tick accounting, events and stores all of
    whose bytes fail [IsInCodeMem] never set it, and a 16 to 128 bit store
    sets it as soon as one of its bytes passes. *)
Theorem self_modify_flag_exact (e : A64TestEnv) (cs : list Callback) :
  code_mem_modified_by_guest (run cs e) =
  code_mem_modified_by_guest e
  || existsb (IsInCodeMem e) (concat (map written_addresses cs)).
Proof. apply (se_flag _ _ _ (run_store_effect cs e)). Qed.

(** X4. The overlay only grows: after any sequence of callbacks its key set is
    the old key set together with every byte address the stores of the
    sequence wrote, inside the Code Region or not. *)
Theorem overlay_keys_exact (e : A64TestEnv) (cs : list Callback) :
  dom (modified_memory (run cs e)) =
  dom (modified_memory e) ∪ list_to_set (concat (map written_addresses cs)).
Proof. apply (se_dom _ _ _ (run_store_effect cs e)). Qed.

(** ** Loads and fetches that stores cannot disturb *)

(** X5. No callback changes the word array or its start address, so a fetch
    returns the same result after any sequence of callbacks, stores into
    the Code Region included. *)
Theorem fetch_never_changes (e : A64TestEnv) (cs : list Callback) (a : Z) :
  eval (MemoryReadCode a) (run cs e) = eval (MemoryReadCode a) e.
Proof.
  pose proof (run_store_step cs e) as Hrun.
  rewrite !eval_MemoryReadCode, run_IsInCodeMem.
  rewrite (ss_code _ _ _ Hrun), (ss_start _ _ _ Hrun). reflexivity.
Qed.

Lemma frame_MemoryRead8 l e e' a :
  store_step l e e' → Forall (unaffected l e) (bytes8 a) →
  eval (MemoryRead8 a) e' = eval (MemoryRead8 a) e.
Proof.
  intros Hstep Ha. apply Forall_cons in Ha as [Ha _].
  eapply eval_MemoryRead8_store_step; eassumption.
Qed.

Lemma frame_MemoryRead16 l e e' a :
  store_step l e e' → Forall (unaffected l e) (bytes16 a) →
  eval (MemoryRead16 a) e' = eval (MemoryRead16 a) e.
Proof.
  intros Hstep Ha. apply Forall_app in Ha as [Ha1 Ha2].
  rewrite !eval_MemoryRead16.
  rewrite (frame_MemoryRead8 l e e' a Hstep Ha1).
  rewrite (frame_MemoryRead8 l e e' _ Hstep Ha2). reflexivity.
Qed.

Lemma frame_MemoryRead32 l e e' a :
  store_step l e e' → Forall (unaffected l e) (bytes32 a) →
  eval (MemoryRead32 a) e' = eval (MemoryRead32 a) e.
Proof.
  intros Hstep Ha. apply Forall_app in Ha as [Ha1 Ha2].
  rewrite !eval_MemoryRead32.
  rewrite (frame_MemoryRead16 l e e' a Hstep Ha1).
  rewrite (frame_MemoryRead16 l e e' _ Hstep Ha2). reflexivity.
Qed.

Lemma exec_MemoryRead32 a e : exec (MemoryRead32 a) e = e.
Proof. apply read_only_MemoryRead32. Qed.

Lemma exec_MemoryRead64 a e : exec (MemoryRead64 a) e = e.
Proof. apply read_only_MemoryRead64. Qed.

Lemma eval_MemoryRead64 a e :
  eval (MemoryRead64 a) e =
  wrap64 (Z.lor (eval (MemoryRead32 a) e)
            (Z.shiftl (eval (MemoryRead32 (wrap64 (a + 4))) e) 32)).
Proof.
  unfold MemoryRead64. run_m. rewrite !exec_MemoryRead32. reflexivity.
Qed.

Lemma eval_MemoryRead128 a e :
  eval (MemoryRead128 a) e =
  (eval (MemoryRead64 a) e, eval (MemoryRead64 (wrap64 (a + 8))) e).
Proof.
  unfold MemoryRead128. run_m. rewrite !exec_MemoryRead64. reflexivity.
Qed.

Lemma frame_MemoryRead64 l e e' a :
  store_step l e e' → Forall (unaffected l e) (bytes64 a) →
  eval (MemoryRead64 a) e' = eval (MemoryRead64 a) e.
Proof.
  intros Hstep Ha. apply Forall_app in Ha as [Ha1 Ha2].
  rewrite !eval_MemoryRead64.
  rewrite (frame_MemoryRead32 l e e' a Hstep Ha1).
  rewrite (frame_MemoryRead32 l e e' _ Hstep Ha2). reflexivity.
Qed.

Lemma frame_MemoryRead128 l e e' a :
  store_step l e e' → Forall (unaffected l e) (bytes128 a) →
  eval (MemoryRead128 a) e' = eval (MemoryRead128 a) e.
Proof.
  intros Hstep Ha. apply Forall_app in Ha as [Ha1 Ha2].
  rewrite !eval_MemoryRead128.
  rewrite (frame_MemoryRead64 l e e' a Hstep Ha1).
  rewrite (frame_MemoryRead64 l e e' _ Hstep Ha2). reflexivity.
Qed.

(** X6. A load of any width returns the same value after a sequence of
    callbacks as before it, provided each byte address the load reads
    passes [IsInCodeMem] or is written by none of the stores of the
    sequence. *)
Theorem loads_unaffected_by_other_stores
    (e : A64TestEnv) (cs : list Callback) (a : Z) :
  let touched := concat (map written_addresses cs) in
  (Forall (unaffected touched e) (bytes8 a) →
   eval (MemoryRead8 a) (run cs e) = eval (MemoryRead8 a) e) ∧
  (Forall (unaffected touched e) (bytes16 a) →
   eval (MemoryRead16 a) (run cs e) = eval (MemoryRead16 a) e) ∧
  (Forall (unaffected touched e) (bytes32 a) →
   eval (MemoryRead32 a) (run cs e) = eval (MemoryRead32 a) e) ∧
  (Forall (unaffected touched e) (bytes64 a) →
   eval (MemoryRead64 a) (run cs e) = eval (MemoryRead64 a) e) ∧
  (Forall (unaffected touched e) (bytes128 a) →
   eval (MemoryRead128 a) (run cs e) = eval (MemoryRead128 a) e).
Proof.
  intros touched. pose proof (run_store_step cs e) as Hrun.
  split; [apply frame_MemoryRead8, Hrun|].
  split; [apply frame_MemoryRead16, Hrun|].
  split; [apply frame_MemoryRead32, Hrun|].
  split; [apply frame_MemoryRead64, Hrun|].
  apply frame_MemoryRead128, Hrun.
Qed.

(** On [main]'s program: a 64-bit load at address 24 reads four code bytes
    and four bytes past the end; a store over the code bytes and a store
    elsewhere leave its value as it was. *)
Lemma loads_unaffected_by_other_stores_witness :
  eval (MemoryRead64 24)
    (run [CbMemoryWrite32 24 0xFFFFFFFF; CbMemoryWrite64 4096 1] main_env)
  = eval (MemoryRead64 24) main_env.
Proof.
  destruct (loads_unaffected_by_other_stores main_env
              [CbMemoryWrite32 24 0xFFFFFFFF; CbMemoryWrite64 4096 1] 24)
    as (_ & _ & _ & H64 & _).
  apply H64.
  repeat (constructor;
          [first [left; reflexivity | right; compute_done]|]).
  constructor.
Defined.

(** ** Loads from the Code Region *)

Lemma land_255 x : Z.land x 255 = x mod 2 ^ 8.
Proof. change 255 with (Z.ones 8). apply Z.land_ones. lia. Qed.

Lemma code_byte_le words off :
  0 <= off →
  code_byte words off = le_byte (off mod 4) (code_word words (off / 4)).
Proof.
  intros Hoff. unfold code_byte, le_byte.
  rewrite land_255, Z.shiftr_div_pow2; [reflexivity|].
  Z.to_euclidean_division_equations; lia.
Qed.

(** X7. A byte load from an address that passes [IsInCodeMem] returns the
    byte of the instruction word at index [(a - start) / 4] selected by
    [(a - start) mod 4], least significant byte first, whatever the overlay
    holds and whatever callbacks ran before. *)
Theorem code_byte_load_is_little_endian
    (e : A64TestEnv) (cs : list Callback) (a : Z) :
  is_u64 (code_mem_start_address e) →
  IsInCodeMem e a = true →
  ∃ w, code_mem e !! Z.to_nat ((a - code_mem_start_address e) / 4) = Some w
       ∧ eval (MemoryRead8 a) (run cs e)
         = le_byte ((a - code_mem_start_address e) mod 4) w.
Proof.
  intros Hs Hin.
  destruct (IsInCodeMem_index e a Hs Hin) as [Hoff Hidx].
  destruct (lookup_lt_is_Some_2 (code_mem e)
              (Z.to_nat ((a - code_mem_start_address e) / 4))) as [w Hw];
    [lia|].
  exists w. split; [exact Hw|].
  rewrite (eval_MemoryRead8_store_step _ e _ a (run_store_step cs e))
    by (left; exact Hin).
  rewrite eval_MemoryRead8, Hin, Hoff, code_byte_le.
  - unfold code_word. rewrite Hw. reflexivity.
  - apply IsInCodeMem_bounds in Hin. lia.
Qed.

Lemma code_byte_load_is_little_endian_witness :
  eval (MemoryRead8 14)
    (run [CbMemoryWrite8 14 0xEE; CbMemoryWrite64 8 0] main_env)
  = le_byte 2 0x91000421.
Proof.
  destruct (code_byte_load_is_little_endian main_env
              [CbMemoryWrite8 14 0xEE; CbMemoryWrite64 8 0] 14)
    as (w & Hw & Hread); [range_closed | reflexivity |].
  injection Hw as <-. exact Hread.
Defined.

(** ** Wide loads as little-endian values of byte loads *)

Lemma MemoryRead8_is_u8 e a :
  overlay_bytes e → is_u8 (eval (MemoryRead8 a) e).
Proof.
  intros Hwf. rewrite eval_MemoryRead8.
  destruct (IsInCodeMem e a).
  - unfold code_byte. rewrite land_255. apply Z.mod_pos_bound. lia.
  - destruct (modified_memory e !! a) as [v|] eqn:Hv; simpl.
    + apply (Hwf a v Hv).
    + apply Z.mod_pos_bound. lia.
Qed.

Lemma join_halves k lo hi :
  0 < k → 0 <= lo < 2 ^ k → 0 <= hi < 2 ^ k →
  Z.lor lo (Z.shiftl hi k) mod 2 ^ (k + k) = lo + 2 ^ k * hi.
Proof.
  intros Hk Hlo Hhi. rewrite lor_shiftl_add by lia.
  rewrite Z.pow_add_r by lia. rewrite Z.mod_small; nia.
Qed.

Lemma MemoryRead16_range a e : 0 <= eval (MemoryRead16 a) e < 2 ^ 16.
Proof. rewrite eval_MemoryRead16. apply Z.mod_pos_bound. lia. Qed.

Lemma MemoryRead32_range a e : 0 <= eval (MemoryRead32 a) e < 2 ^ 32.
Proof. rewrite eval_MemoryRead32. apply Z.mod_pos_bound. lia. Qed.

Lemma MemoryRead16_le e a :
  overlay_bytes e →
  eval (MemoryRead16 a) e =
  eval (MemoryRead8 a) e + 2 ^ 8 * eval (MemoryRead8 (wrap64 (a + 1))) e.
Proof.
  intros Hwf. rewrite eval_MemoryRead16.
  apply (join_halves 8); [lia | apply MemoryRead8_is_u8, Hwf ..].
Qed.

Lemma MemoryRead32_halves e a :
  eval (MemoryRead32 a) e =
  eval (MemoryRead16 a) e + 2 ^ 16 * eval (MemoryRead16 (wrap64 (a + 2))) e.
Proof.
  rewrite eval_MemoryRead32.
  apply (join_halves 16); [lia | apply MemoryRead16_range ..].
Qed.

Lemma MemoryRead64_halves e a :
  eval (MemoryRead64 a) e =
  eval (MemoryRead32 a) e + 2 ^ 32 * eval (MemoryRead32 (wrap64 (a + 4))) e.
Proof.
  rewrite eval_MemoryRead64.
  apply (join_halves 32); [lia | apply MemoryRead32_range ..].
Qed.

Lemma bytes_read_app e a n m :
  bytes_read e a (n + m) =
  bytes_read e a n ++ bytes_read e (wrap64 (a + Z.of_nat n)) m.
Proof.
  unfold bytes_read. rewrite seq_app, map_app. f_equal.
  simpl.
  replace (seq n m) with (seq (n + 0)%nat m) by (rewrite Nat.add_0_r; reflexivity).
  rewrite <- (fmap_add_seq n 0 m), <- list_fmap_compose.
  apply map_ext. intros i. simpl.
  rewrite wrap64_add_add, Nat2Z.inj_add. reflexivity.
Qed.

Lemma le_value_app bs1 bs2 :
  le_value (bs1 ++ bs2) =
  le_value bs1 + 2 ^ (8 * Z.of_nat (length bs1)) * le_value bs2.
Proof.
  induction bs1 as [|b bs1 IH]; [simpl; lia|].
  cbn [app le_value length]. rewrite IH, Nat2Z.inj_succ.
  replace (8 * Z.succ (Z.of_nat (length bs1)))
    with (8 + 8 * Z.of_nat (length bs1)) by lia.
  rewrite Z.pow_add_r by lia. lia.
Qed.

Lemma bytes_read_length e a n : length (bytes_read e a n) = n.
Proof. unfold bytes_read. rewrite length_map, length_seq. reflexivity. Qed.

Lemma bytes_read_1 e a :
  is_u64 a → bytes_read e a 1 = [eval (MemoryRead8 a) e].
Proof.
  intros Ha. unfold bytes_read. simpl. rewrite Z.add_0_r.
  unfold wrap64. rewrite Z.mod_small by exact Ha. reflexivity.
Qed.

Lemma wrap64_is_u64 x : is_u64 (wrap64 x).
Proof. apply Z.mod_pos_bound. lia. Qed.

Lemma MemoryRead16_le_value e a :
  is_u64 a → overlay_bytes e →
  eval (MemoryRead16 a) e = le_value (bytes_read e a 2).
Proof.
  intros Ha Hwf. change 2%nat with (1 + 1)%nat.
  rewrite (bytes_read_app e a 1 1), le_value_app.
  rewrite bytes_read_length, !bytes_read_1 by (assumption || apply wrap64_is_u64).
  rewrite MemoryRead16_le by assumption. simpl le_value.
  change (Z.of_nat 1) with 1. change (8 * 1) with 8. lia.
Qed.

Lemma MemoryRead32_le_value e a :
  is_u64 a → overlay_bytes e →
  eval (MemoryRead32 a) e = le_value (bytes_read e a 4).
Proof.
  intros Ha Hwf. change 4%nat with (2 + 2)%nat.
  rewrite (bytes_read_app e a 2 2), le_value_app.
  rewrite bytes_read_length, <- !MemoryRead16_le_value
    by (assumption || apply wrap64_is_u64).
  apply MemoryRead32_halves.
Qed.

Lemma MemoryRead64_le_value e a :
  is_u64 a → overlay_bytes e →
  eval (MemoryRead64 a) e = le_value (bytes_read e a 8).
Proof.
  intros Ha Hwf. change 8%nat with (4 + 4)%nat.
  rewrite (bytes_read_app e a 4 4), le_value_app.
  rewrite bytes_read_length, <- !MemoryRead32_le_value
    by (assumption || apply wrap64_is_u64).
  apply MemoryRead64_halves.
Qed.

(** X8. The 16, 32 and 64 bit loads return the little-endian value of the
    2, 4 and 8 byte loads at the consecutive [u64] addresses from [a]
    (wrapping at the top of the address space), and the 128-bit load
    returns two such 64-bit values, from [a] and from [a + 8]. *)
Theorem wide_loads_are_little_endian (e : A64TestEnv) (a : Z) :
  is_u64 a → overlay_bytes e →
  eval (MemoryRead16 a) e = le_value (bytes_read e a 2) ∧
  eval (MemoryRead32 a) e = le_value (bytes_read e a 4) ∧
  eval (MemoryRead64 a) e = le_value (bytes_read e a 8) ∧
  eval (MemoryRead128 a) e =
    (le_value (bytes_read e a 8), le_value (bytes_read e (wrap64 (a + 8)) 8)).
Proof.
  intros Ha Hwf.
  split; [apply MemoryRead16_le_value; assumption|].
  split; [apply MemoryRead32_le_value; assumption|].
  split; [apply MemoryRead64_le_value; assumption|].
  rewrite eval_MemoryRead128.
  rewrite !MemoryRead64_le_value by (assumption || apply wrap64_is_u64).
  reflexivity.
Qed.

(** On [main]'s program, a 64-bit load that starts two bytes before the
    end of the code and runs into unmapped addresses. *)
Lemma wide_loads_are_little_endian_witness :
  eval (MemoryRead64 26) main_env
  = le_value [0xFF; 0x54; 28; 29; 30; 31; 32; 33].
Proof.
  destruct (wide_loads_are_little_endian main_env 26) as (_ & _ & H64 & _);
    [range_closed | apply map_Forall_empty |].
  exact H64.
Defined.

(** ** Data loads of whole instruction words *)

Lemma aligned_word_bytes e a i :
  is_u64 (code_mem_start_address e) →
  IsInCodeMem e a = true →
  (a - code_mem_start_address e) mod 4 = 0 →
  0 <= i < 4 →
  wrap64 (a + i) = a + i ∧
  IsInCodeMem e (a + i) = true ∧
  wrap64 (a + i - code_mem_start_address e) = a + i - code_mem_start_address e ∧
  (a + i - code_mem_start_address e) / 4 = (a - code_mem_start_address e) / 4 ∧
  (a + i - code_mem_start_address e) mod 4 = i.
Proof.
  intros Hs Hin Hal Hi. rewrite IsInCodeMem_bounds in *.
  pose proof (Nat2Z.is_nonneg (length (code_mem e))) as Hlen.
  revert Hs Hin Hal Hlen. generalize (Z.of_nat (length (code_mem e))) as n.
  generalize (code_mem_start_address e) as s. intros s n Hs Hin Hal Hlen.
  unwrap.
  assert (Hend : a + 3 < (s + (n * 4) mod 18446744073709551616)
                           mod 18446744073709551616)
    by (Z.to_euclidean_division_equations; lia).
  repeat split; Z.to_euclidean_division_equations; lia.
Qed.

Lemma le_bytes_of_u32 w :
  is_u32 w →
  (le_byte 0 w + 2 ^ 8 * le_byte 1 w)
  + 2 ^ 16 * (le_byte 2 w + 2 ^ 8 * le_byte 3 w) = w.
Proof.
  unfold is_u32, le_byte. intros Hw.
  change (2 ^ (8 * 0)) with 1. change (2 ^ (8 * 1)) with 256.
  change (2 ^ (8 * 2)) with 65536. change (2 ^ (8 * 3)) with 16777216.
  change (2 ^ 8) with 256. change (2 ^ 16) with 65536.
  change (2 ^ 32) with 4294967296 in Hw.
  Z.to_euclidean_division_equations. lia.
Qed.

Lemma le_byte_is_u8 i w : is_u8 (le_byte i w).
Proof. apply Z.mod_pos_bound. lia. Qed.

(** X9. At an address that passes [IsInCodeMem] and lies a multiple of four
    bytes above [code_mem_start_address], the 32-bit data load returns the
    instruction word the fetch returns there, also after any sequence of
    callbacks (stores over the word included). *)
Theorem aligned_code_load32_is_fetched_word
    (e : A64TestEnv) (cs : list Callback) (a : Z) :
  is_u64 (code_mem_start_address e) →
  Forall is_u32 (code_mem e) →
  IsInCodeMem e a = true →
  (a - code_mem_start_address e) mod 4 = 0 →
  eval (MemoryReadCode a) (run cs e)
  = Some (eval (MemoryRead32 a) (run cs e)).
Proof.
  intros Hs Hwords Hin Hal.
  pose proof (run_store_step cs e) as Hrun.
  destruct (aligned_word_bytes e a 0 Hs Hin Hal ltac:(lia))
    as (_ & _ & O0 & _ & M0).
  destruct (aligned_word_bytes e a 1 Hs Hin Hal ltac:(lia))
    as (W1 & I1 & O1 & D1 & M1).
  destruct (aligned_word_bytes e a 2 Hs Hin Hal ltac:(lia))
    as (W2 & I2 & O2 & D2 & M2).
  destruct (aligned_word_bytes e a 3 Hs Hin Hal ltac:(lia))
    as (W3 & I3 & O3 & D3 & M3).
  rewrite Z.add_0_r in O0, M0.
  destruct (IsInCodeMem_index e a Hs Hin) as [_ Hidx].
  destruct (lookup_lt_is_Some_2 (code_mem e)
              (Z.to_nat ((a - code_mem_start_address e) / 4))) as [w Hw];
    [lia|].
  assert (Hu32 : is_u32 w) by (eapply Forall_lookup_1; eassumption).
  assert (Hword : code_word (code_mem e)
                    ((a - code_mem_start_address e) / 4) = w)
    by (unfold code_word; rewrite Hw; reflexivity).
  assert (Hbyte : ∀ i, 0 <= i < 4 →
            IsInCodeMem e (a + i) = true →
            wrap64 (a + i - code_mem_start_address e)
              = a + i - code_mem_start_address e →
            (a + i - code_mem_start_address e) / 4
              = (a - code_mem_start_address e) / 4 →
            (a + i - code_mem_start_address e) mod 4 = i →
            eval (MemoryRead8 (a + i)) e = le_byte i w).
  { intros i Hi Hini Ho Hd Hm.
    rewrite eval_MemoryRead8, Hini, Ho, code_byte_le, Hd, Hm, Hword;
      [reflexivity|].
    apply IsInCodeMem_bounds in Hini. lia. }
  rewrite eval_MemoryReadCode, run_IsInCodeMem, Hin.
  rewrite (ss_code _ _ _ Hrun), (ss_start _ _ _ Hrun), O0, Hword.
  f_equal.
  rewrite (frame_MemoryRead32 _ e _ a Hrun).
  2:{ unfold bytes32, bytes16, bytes8. rewrite wrap64_add_add.
      change (2 + 1) with 3. rewrite W1, W2, W3.
      repeat (constructor; [left; first [exact Hin | assumption]|]).
      constructor. }
  rewrite MemoryRead32_halves, !eval_MemoryRead16, wrap64_add_add.
  change (2 + 1) with 3. rewrite W1, W2, W3.
  rewrite (Hbyte 1), (Hbyte 2), (Hbyte 3) by (assumption || lia).
  assert (H0 : eval (MemoryRead8 a) e = le_byte 0 w).
  { rewrite <- (Z.add_0_r a) at 1. apply Hbyte; rewrite ?Z.add_0_r;
      (assumption || lia || reflexivity). }
  rewrite H0.
  unfold wrap16.
  rewrite !(join_halves 8) by (lia || apply le_byte_is_u8).
  symmetry. apply le_bytes_of_u32, Hu32.
Qed.

Lemma aligned_code_load32_is_fetched_word_witness :
  eval (MemoryReadCode 8) (run [CbMemoryWrite32 8 0] main_env)
  = Some (eval (MemoryRead32 8) (run [CbMemoryWrite32 8 0] main_env)).
Proof.
  apply (aligned_code_load32_is_fetched_word main_env
           [CbMemoryWrite32 8 0] 8);
    [ range_closed
    | repeat (constructor; [unfold is_u32; vm_compute; split; congruence|]);
      constructor
    | reflexivity
    | reflexivity ].
Defined.

(** ** Bytes of a value and spans of addresses *)

Lemma le_byte_testbit i v n :
  0 <= i → 0 <= n →
  Z.testbit (le_byte i v) n = (n <? 8) && Z.testbit v (n + 8 * i).
Proof.
  intros Hi Hn. unfold le_byte.
  rewrite Z.testbit_mod_pow2 by lia.
  rewrite <- Z.shiftr_div_pow2 by lia.
  rewrite Z.shiftr_spec by lia. reflexivity.
Qed.

Lemma le_byte_mod i v k :
  0 <= i → 8 * (i + 1) <= k → le_byte i (v mod 2 ^ k) = le_byte i v.
Proof.
  intros Hi Hk. apply Z.bits_inj'. intros n Hn.
  rewrite !le_byte_testbit by lia.
  destruct (Z.ltb_spec n 8) as [Hlt|Hge]; [|reflexivity]. simpl.
  rewrite Z.testbit_mod_pow2 by lia.
  destruct (Z.ltb_spec (n + 8 * i) k); [reflexivity | lia].
Qed.

Lemma le_byte_shiftr i v j :
  0 <= i → 0 <= j → le_byte i (Z.shiftr v (8 * j)) = le_byte (i + j) v.
Proof.
  intros Hi Hj. apply Z.bits_inj'. intros n Hn.
  rewrite !le_byte_testbit by lia.
  rewrite Z.shiftr_spec by lia. do 2 f_equal. lia.
Qed.

Lemma split_halves v k :
  0 < k →
  v mod 2 ^ k + 2 ^ k * (Z.shiftr v k mod 2 ^ k) = v mod 2 ^ (k + k).
Proof.
  intros Hk. rewrite Z.shiftr_div_pow2, Z.pow_add_r by lia.
  symmetry. apply Z.rem_mul_r; lia.
Qed.

Lemma in_span_disjoint a n b :
  0 < n → n + n <= 2 ^ 64 →
  in_span a n b → in_span (wrap64 (a + n)) n b → False.
Proof.
  intros Hn Hnn (i & Hi & Hbi) (j & Hj & Hbj).
  rewrite wrap64_add_add in Hbj. subst b. revert Hbj. lia_mod.
Qed.

Lemma in_span_low a n b : 0 <= n → in_span a n b → in_span a (n + n) b.
Proof. intros Hn (i & Hi & Hb). exists i. split; [lia | exact Hb]. Qed.

Lemma in_span_high a n b :
  0 <= n → in_span (wrap64 (a + n)) n b → in_span a (n + n) b.
Proof.
  intros Hn (j & Hj & Hb). exists (n + j). split; [lia|].
  rewrite Hb. apply wrap64_add_add.
Qed.

Lemma wrap64_small a : is_u64 a → wrap64 a = a.
Proof. intros Ha. apply Z.mod_small, Ha. Qed.

Lemma MemoryRead8_after_MemoryWrite8 e a v :
  IsInCodeMem e a = false →
  eval (MemoryRead8 a) (exec (MemoryWrite8 a v) e) = v.
Proof.
  intros Hout.
  rewrite eval_MemoryRead8, IsInCodeMem_MemoryWrite8, Hout.
  rewrite modified_memory_MemoryWrite8, lookup_insert_eq. reflexivity.
Qed.

(** ** From a store and load of [n] bytes to those of [2 n] bytes

    The wider stores and loads of the source are all built the same way
    from the next narrower ones; the layout of a store and the round trip
    through a load are lifted along that construction once. *)
Section Doubling.

Variable n : Z.
Variable writeN : Z → Z → M unit.
Variable readN : Z → M Z.
Variable bytesN : Z → list Z.

Hypothesis n_pos : 0 < n.
Hypothesis n_small : n + n <= 2 ^ 64.
Hypothesis write_step :
  ∀ a v e, store_step (bytesN a) e (exec (writeN a v) e).
Hypothesis bytes_span : ∀ a b, is_u64 a → b ∈ bytesN a → in_span a n b.
Hypothesis write_layout :
  ∀ e a v i, is_u64 a → 0 <= v < 2 ^ (8 * n) → 0 <= i < n →
    modified_memory (exec (writeN a v) e) !! wrap64 (a + i)
    = Some (le_byte i v).
Hypothesis read_exec : ∀ a e, exec (readN a) e = e.
Hypothesis read_frame :
  ∀ l e e' a, store_step l e e' → Forall (unaffected l e) (bytesN a) →
    eval (readN a) e' = eval (readN a) e.
Hypothesis round_trip :
  ∀ e a v, is_u64 a → 0 <= v < 2 ^ (8 * n) →
    Forall (λ b, IsInCodeMem e b = false) (bytesN a) →
    eval (readN a) (exec (writeN a v) e) = v.

Lemma bytes_span_double a b :
  is_u64 a → b ∈ bytesN a ++ bytesN (wrap64 (a + n)) →
  in_span a (n + n) b.
Proof.
  intros Ha Hb. apply elem_of_app in Hb as [Hb|Hb].
  - apply in_span_low; [lia|]. apply bytes_span; assumption.
  - apply in_span_high; [lia|].
    apply bytes_span; [apply wrap64_is_u64 | assumption].
Qed.

Lemma halves_apart a b :
  is_u64 a → in_span a n b → b ∉ bytesN (wrap64 (a + n)).
Proof.
  intros Ha Hlo Hhi. apply (in_span_disjoint a n b); try assumption.
  apply bytes_span; [apply wrap64_is_u64 | assumption].
Qed.

Lemma mod_range v : 0 <= v mod 2 ^ (8 * n) < 2 ^ (8 * n).
Proof. apply Z.mod_pos_bound. apply Z.pow_pos_nonneg; lia. Qed.

Lemma write_layout_halves e a lo hi i :
  is_u64 a → 0 <= lo < 2 ^ (8 * n) → 0 <= hi < 2 ^ (8 * n) → 0 <= i < n →
  let e' := exec (writeN a lo >> writeN (wrap64 (a + n)) hi) e in
  modified_memory e' !! wrap64 (a + i) = Some (le_byte i lo) ∧
  modified_memory e' !! wrap64 (a + n + i) = Some (le_byte i hi).
Proof.
  intros Ha Hlo Hhi Hi. cbv zeta. rewrite exec_bind. split.
  - rewrite (ss_other _ _ _ (write_step _ _ _)).
    + apply write_layout; assumption.
    + apply halves_apart; [assumption|]. exists i. split; [lia|reflexivity].
  - rewrite <- Z.add_assoc, <- wrap64_add_add.
    apply write_layout; (assumption || apply wrap64_is_u64).
Qed.

Lemma write_layout_double e a v i :
  is_u64 a → 0 <= i < n + n →
  modified_memory (exec (write_double n writeN a v) e) !! wrap64 (a + i)
  = Some (le_byte i v).
Proof.
  intros Ha Hi. unfold write_double.
  destruct (Z.lt_ge_cases i n) as [Hlo|Hhi].
  - destruct (write_layout_halves e a (v mod 2 ^ (8 * n))
                (Z.shiftr v (8 * n) mod 2 ^ (8 * n)) i)
      as [Hl _]; try (assumption || apply mod_range || lia).
    rewrite Hl, le_byte_mod by lia. reflexivity.
  - destruct (write_layout_halves e a (v mod 2 ^ (8 * n))
                (Z.shiftr v (8 * n) mod 2 ^ (8 * n)) (i - n))
      as [_ Hh]; try (assumption || apply mod_range || lia).
    replace (a + n + (i - n)) with (a + i) in Hh by lia.
    rewrite Hh, le_byte_mod, le_byte_shiftr by lia.
    do 2 f_equal. lia.
Qed.

Lemma write_step_double a v e :
  store_step (bytesN a ++ bytesN (wrap64 (a + n))) e
    (exec (write_double n writeN a v) e).
Proof.
  revert e. apply store_step_seq; intros e; apply write_step.
Qed.

Lemma round_trip_halves e a lo hi :
  is_u64 a → 0 <= lo < 2 ^ (8 * n) → 0 <= hi < 2 ^ (8 * n) →
  Forall (λ b, IsInCodeMem e b = false)
    (bytesN a ++ bytesN (wrap64 (a + n))) →
  let e' := exec (writeN a lo >> writeN (wrap64 (a + n)) hi) e in
  eval (readN a) e' = lo ∧ eval (readN (wrap64 (a + n))) e' = hi.
Proof.
  intros Ha Hlo Hhi Hout. apply Forall_app in Hout as [Hout1 Hout2].
  cbv zeta. rewrite exec_bind.
  set (e1 := exec (writeN a lo) e).
  pose proof (write_step a lo e) as Hstep1. fold e1 in Hstep1.
  split.
  - rewrite (read_frame _ e1 _ a (write_step _ _ e1)).
    + apply round_trip; assumption.
    + apply Forall_forall. intros b Hb. right.
      apply halves_apart; [assumption|]. apply bytes_span; assumption.
  - apply round_trip; [apply wrap64_is_u64 | assumption |].
    eapply Forall_impl; [exact Hout2|]. intros b Hb. simpl in Hb.
    rewrite (IsInCodeMem_same_code e e1 b
               (ss_start _ _ _ Hstep1) (ss_code _ _ _ Hstep1)).
    exact Hb.
Qed.

Lemma round_trip_double e a v :
  is_u64 a →
  Forall (λ b, IsInCodeMem e b = false)
    (bytesN a ++ bytesN (wrap64 (a + n))) →
  eval (read_double n readN a) (exec (write_double n writeN a v) e)
  = v mod 2 ^ (8 * n + 8 * n).
Proof.
  intros Ha Hout.
  destruct (round_trip_halves e a (v mod 2 ^ (8 * n))
              (Z.shiftr v (8 * n) mod 2 ^ (8 * n)) Ha
              (mod_range _) (mod_range _) Hout) as [Hl Hh].
  unfold read_double. run_m. rewrite !read_exec.
  unfold write_double. rewrite Hl, Hh.
  rewrite join_halves by (apply mod_range || lia).
  apply split_halves. lia.
Qed.

End Doubling.

Lemma stores_are_doublings a v :
  MemoryWrite16 a v = write_double 1 MemoryWrite8 a v ∧
  MemoryWrite32 a v = write_double 2 MemoryWrite16 a v ∧
  MemoryWrite64 a v = write_double 4 MemoryWrite32 a v.
Proof. repeat split. Qed.

Lemma loads_are_doublings a :
  MemoryRead16 a = read_double 1 MemoryRead8 a ∧
  MemoryRead32 a = read_double 2 MemoryRead16 a ∧
  MemoryRead64 a = read_double 4 MemoryRead32 a.
Proof. repeat split. Qed.

(** ** The stores and loads of the source, width by width *)

Ltac closed_le := vm_compute; discriminate.

Lemma bytes8_span a b : is_u64 a → b ∈ bytes8 a → in_span a 1 b.
Proof.
  intros Ha Hb. apply list_elem_of_singleton in Hb. subst b.
  exists 0. split; [lia|]. rewrite Z.add_0_r, wrap64_small; auto.
Qed.

Lemma MemoryWrite8_layout e a v i :
  is_u64 a → 0 <= v < 2 ^ (8 * 1) → 0 <= i < 1 →
  modified_memory (exec (MemoryWrite8 a v) e) !! wrap64 (a + i)
  = Some (le_byte i v).
Proof.
  intros Ha Hv Hi. assert (i = 0) as -> by lia.
  rewrite Z.add_0_r, wrap64_small by assumption.
  rewrite modified_memory_MemoryWrite8, lookup_insert_eq.
  unfold le_byte. change (2 ^ (8 * 0)) with 1.
  rewrite Z.div_1_r, Z.mod_small; [reflexivity | exact Hv].
Qed.

Lemma MemoryWrite8_round_trip e a v :
  is_u64 a → 0 <= v < 2 ^ (8 * 1) →
  Forall (λ b, IsInCodeMem e b = false) (bytes8 a) →
  eval (MemoryRead8 a) (exec (MemoryWrite8 a v) e) = v.
Proof.
  intros _ _ Hout. apply Forall_cons in Hout as [Hout _].
  apply MemoryRead8_after_MemoryWrite8, Hout.
Qed.

Lemma bytes16_span a b : is_u64 a → b ∈ bytes16 a → in_span a 2 b.
Proof. apply (bytes_span_double 1 bytes8); [lia | apply bytes8_span]. Qed.

Lemma MemoryWrite16_layout e a v i :
  is_u64 a → 0 <= i < 2 →
  modified_memory (exec (MemoryWrite16 a v) e) !! wrap64 (a + i)
  = Some (le_byte i v).
Proof.
  apply (write_layout_double 1 MemoryWrite8 bytes8);
    [ lia | closed_le | intros; apply store_step_MemoryWrite8
    | apply bytes8_span | apply MemoryWrite8_layout ].
Qed.

Lemma MemoryWrite16_round_trip e a v :
  is_u64 a → Forall (λ b, IsInCodeMem e b = false) (bytes16 a) →
  eval (MemoryRead16 a) (exec (MemoryWrite16 a v) e) = wrap16 v.
Proof.
  apply (round_trip_double 1 MemoryWrite8 MemoryRead8 bytes8);
    [ lia | closed_le | intros; apply store_step_MemoryWrite8
    | apply bytes8_span | apply exec_MemoryRead8 | apply frame_MemoryRead8
    | apply MemoryWrite8_round_trip ].
Qed.

Lemma bytes32_span a b : is_u64 a → b ∈ bytes32 a → in_span a 4 b.
Proof. apply (bytes_span_double 2 bytes16); [lia | apply bytes16_span]. Qed.

Lemma MemoryWrite32_layout e a v i :
  is_u64 a → 0 <= i < 4 →
  modified_memory (exec (MemoryWrite32 a v) e) !! wrap64 (a + i)
  = Some (le_byte i v).
Proof.
  apply (write_layout_double 2 MemoryWrite16 bytes16);
    [ lia | closed_le | intros; apply store_step_MemoryWrite16
    | apply bytes16_span | intros; apply MemoryWrite16_layout; assumption ].
Qed.

Lemma MemoryWrite32_round_trip e a v :
  is_u64 a → Forall (λ b, IsInCodeMem e b = false) (bytes32 a) →
  eval (MemoryRead32 a) (exec (MemoryWrite32 a v) e) = wrap32 v.
Proof.
  apply (round_trip_double 2 MemoryWrite16 MemoryRead16 bytes16);
    [ lia | closed_le | intros; apply store_step_MemoryWrite16
    | apply bytes16_span | apply exec_MemoryRead16 | apply frame_MemoryRead16
    | ].
  intros e0 a0 v0 Ha0 Hv0 Hout0.
  rewrite MemoryWrite16_round_trip by assumption.
  apply Z.mod_small, Hv0.
Qed.

Lemma bytes64_span a b : is_u64 a → b ∈ bytes64 a → in_span a 8 b.
Proof. apply (bytes_span_double 4 bytes32); [lia | apply bytes32_span]. Qed.

Lemma MemoryWrite64_layout e a v i :
  is_u64 a → 0 <= i < 8 →
  modified_memory (exec (MemoryWrite64 a v) e) !! wrap64 (a + i)
  = Some (le_byte i v).
Proof.
  apply (write_layout_double 4 MemoryWrite32 bytes32);
    [ lia | closed_le | intros; apply store_step_MemoryWrite32
    | apply bytes32_span | intros; apply MemoryWrite32_layout; assumption ].
Qed.

Lemma MemoryWrite64_round_trip e a v :
  is_u64 a → Forall (λ b, IsInCodeMem e b = false) (bytes64 a) →
  eval (MemoryRead64 a) (exec (MemoryWrite64 a v) e) = wrap64 v.
Proof.
  apply (round_trip_double 4 MemoryWrite32 MemoryRead32 bytes32);
    [ lia | closed_le | intros; apply store_step_MemoryWrite32
    | apply bytes32_span | apply exec_MemoryRead32 | apply frame_MemoryRead32
    | ].
  intros e0 a0 v0 Ha0 Hv0 Hout0.
  rewrite MemoryWrite32_round_trip by assumption.
  apply Z.mod_small, Hv0.
Qed.

Lemma bytes128_span a b : is_u64 a → b ∈ bytes128 a → in_span a 16 b.
Proof. apply (bytes_span_double 8 bytes64); [lia | apply bytes64_span]. Qed.

Lemma stored_le_other n a e e' l :
  (∀ b, b ∈ l → in_span a n b) → store_step l e e' →
  ∀ b, ¬ in_span a n b → modified_memory e' !! b = modified_memory e !! b.
Proof.
  intros Hspan Hstep b Hb. apply (ss_other _ _ _ Hstep).
  intros Hin. apply Hb, Hspan, Hin.
Qed.

(** X10. A 16, 32 or 64 bit store at [a] puts byte [i] of the value, least
    significant first, into the overlay at address [a + i] modulo [2^64]
    (so a store at the top of the address space continues at address 0),
    inside the Code Region or not, and changes no other overlay entry. *)
Theorem stores_lay_out_little_endian (e : A64TestEnv) (a v : Z) :
  is_u64 a →
  stored_le 2 a v e (exec (MemoryWrite16 a v) e) ∧
  stored_le 4 a v e (exec (MemoryWrite32 a v) e) ∧
  stored_le 8 a v e (exec (MemoryWrite64 a v) e).
Proof.
  intros Ha. unfold stored_le.
  split; [|split]; (split; [intros i Hi|]).
  - apply MemoryWrite16_layout; assumption.
  - apply (stored_le_other 2 a e _ (bytes16 a));
      [intros b; apply bytes16_span, Ha | apply store_step_MemoryWrite16].
  - apply MemoryWrite32_layout; assumption.
  - apply (stored_le_other 4 a e _ (bytes32 a));
      [intros b; apply bytes32_span, Ha | apply store_step_MemoryWrite32].
  - apply MemoryWrite64_layout; assumption.
  - apply (stored_le_other 8 a e _ (bytes64 a));
      [intros b; apply bytes64_span, Ha | apply store_step_MemoryWrite64].
Qed.

(** A 32-bit store two bytes below the top of the address space: the
    upper half lands at addresses 0 and 1. *)
Lemma stores_lay_out_little_endian_witness :
  stored_le 4 0xFFFFFFFFFFFFFFFE 0x11223344 A64TestEnv_new
    (exec (MemoryWrite32 0xFFFFFFFFFFFFFFFE 0x11223344) A64TestEnv_new).
Proof.
  destruct (stores_lay_out_little_endian A64TestEnv_new
              0xFFFFFFFFFFFFFFFE 0x11223344) as (_ & H32 & _);
    [range_closed | exact H32].
Defined.

(** X11. Outside the Code Region a store followed by the load of the same width
    at the same address returns the stored value reduced to that width; for
    the 128-bit pair, both halves. *)
Theorem store_then_load_round_trip
    (e : A64TestEnv) (a v : Z) (vv : Vector) :
  is_u64 a →
  (Forall (λ b, IsInCodeMem e b = false) (bytes16 a) →
   eval (MemoryRead16 a) (exec (MemoryWrite16 a v) e) = wrap16 v) ∧
  (Forall (λ b, IsInCodeMem e b = false) (bytes32 a) →
   eval (MemoryRead32 a) (exec (MemoryWrite32 a v) e) = wrap32 v) ∧
  (Forall (λ b, IsInCodeMem e b = false) (bytes64 a) →
   eval (MemoryRead64 a) (exec (MemoryWrite64 a v) e) = wrap64 v) ∧
  (Forall (λ b, IsInCodeMem e b = false) (bytes128 a) →
   eval (MemoryRead128 a) (exec (MemoryWrite128 a vv) e)
   = (wrap64 (fst vv), wrap64 (snd vv))).
Proof.
  intros Ha.
  split; [apply MemoryWrite16_round_trip, Ha|].
  split; [apply MemoryWrite32_round_trip, Ha|].
  split; [apply MemoryWrite64_round_trip, Ha|].
  intros Hout. apply Forall_app in Hout as [Hout1 Hout2].
  rewrite eval_MemoryRead128. unfold MemoryWrite128. rewrite exec_bind.
  pose proof (store_step_MemoryWrite64 a (fst vv) e) as Hstep1.
  rewrite (frame_MemoryRead64 _ _ _ a (store_step_MemoryWrite64 _ _ _)).
  - rewrite !MemoryWrite64_round_trip;
      try (assumption || apply wrap64_is_u64); [reflexivity|].
    eapply Forall_impl; [exact Hout2|]. intros b Hb. simpl in Hb.
    rewrite (IsInCodeMem_same_code e _ b
               (ss_start _ _ _ Hstep1) (ss_code _ _ _ Hstep1)).
    exact Hb.
  - apply Forall_forall. intros b Hb. right. intros Hb'.
    apply (in_span_disjoint a 8 b); [lia | closed_le | |].
    + apply bytes64_span; assumption.
    + apply bytes64_span; [apply wrap64_is_u64 | assumption].
Qed.

Lemma store_then_load_round_trip_witness :
  eval (MemoryRead128 0xFFFFFFFFFFFFFFF8)
    (exec (MemoryWrite128 0xFFFFFFFFFFFFFFF8 (0x0102030405060708, 0xA0B0C0D0))
       A64TestEnv_new)
  = (0x0102030405060708, 0xA0B0C0D0).
Proof.
  destruct (store_then_load_round_trip A64TestEnv_new 0xFFFFFFFFFFFFFFF8 0
              (0x0102030405060708, 0xA0B0C0D0)) as (_ & _ & _ & H128);
    [range_closed|].
  apply H128.
  repeat (constructor; [vm_compute; reflexivity|]). constructor.
Defined.

(** ** The tick budget over a whole run *)

Lemma ticks_left_bind {A B} (m : M A) (f : A → M B) :
  (∀ e, ticks_left (exec m e) = ticks_left e) →
  (∀ x e, ticks_left (exec (f x) e) = ticks_left e) →
  ∀ e, ticks_left (exec (bind m f) e) = ticks_left e.
Proof. intros Hm Hf e. rewrite exec_bind, Hf, Hm. reflexivity. Qed.

Lemma ticks_left_read_only {A} (m : M A) :
  read_only m → ∀ e, ticks_left (exec (m >> ret tt) e) = ticks_left e.
Proof. intros Hm e. rewrite exec_bind, exec_ret, Hm. reflexivity. Qed.

Lemma ticks_left_MemoryWrite8 a v e :
  ticks_left (exec (MemoryWrite8 a v) e) = ticks_left e.
Proof.
  rewrite exec_MemoryWrite8. destruct (IsInCodeMem e a); reflexivity.
Qed.

Lemma ticks_left_MemoryWrite16 a v e :
  ticks_left (exec (MemoryWrite16 a v) e) = ticks_left e.
Proof.
  revert e. apply ticks_left_bind; intros; apply ticks_left_MemoryWrite8.
Qed.

Lemma ticks_left_MemoryWrite32 a v e :
  ticks_left (exec (MemoryWrite32 a v) e) = ticks_left e.
Proof.
  revert e. apply ticks_left_bind; intros; apply ticks_left_MemoryWrite16.
Qed.

Lemma ticks_left_MemoryWrite64 a v e :
  ticks_left (exec (MemoryWrite64 a v) e) = ticks_left e.
Proof.
  revert e. apply ticks_left_bind; intros; apply ticks_left_MemoryWrite32.
Qed.

Lemma ticks_left_MemoryWrite128 a v e :
  ticks_left (exec (MemoryWrite128 a v) e) = ticks_left e.
Proof.
  revert e. apply ticks_left_bind; intros; apply ticks_left_MemoryWrite64.
Qed.

Lemma ticks_left_then_ret {A B} (m : M A) (x : B) e :
  ticks_left (exec (m >> ret x) e) = ticks_left (exec m e).
Proof. rewrite exec_bind, exec_ret. reflexivity. Qed.

Lemma ticks_left_perform c e :
  (∀ n, c ≠ CbAddTicks n) →
  ticks_left (exec (perform c) e) = ticks_left e.
Proof.
  intros Hc. destruct c; simpl;
    try (apply ticks_left_read_only;
         first [ apply read_only_MemoryReadCode | apply read_only_MemoryRead8
               | apply read_only_MemoryRead16 | apply read_only_MemoryRead32
               | apply read_only_MemoryRead64 | apply read_only_MemoryRead128
               | apply read_only_GetTicksRemaining
               | apply read_only_GetCNTPCT ]);
    try (unfold MemoryWriteExclusive8, MemoryWriteExclusive16,
           MemoryWriteExclusive32, MemoryWriteExclusive64,
           MemoryWriteExclusive128; rewrite !ticks_left_then_ret);
    first [ apply ticks_left_MemoryWrite8 | apply ticks_left_MemoryWrite16
          | apply ticks_left_MemoryWrite32 | apply ticks_left_MemoryWrite64
          | apply ticks_left_MemoryWrite128 | reflexivity
          | exfalso; apply (Hc ticks); reflexivity ].
Qed.

Lemma ticks_charged_nonneg cs : ticks_args_u64 cs → 0 <= ticks_charged cs.
Proof.
  induction cs as [|c cs IH]; simpl; [lia|].
  destruct c; auto. intros [Hn Hcs]. unfold is_u64 in Hn.
  specialize (IH Hcs). lia.
Qed.

(** X13. Over any sequence of callbacks only [AddTicks] moves the budget, and
    the budget left is the initial one minus everything charged, clamped
    at zero: it never grows and never wraps. *)
Theorem budget_after_run (e : A64TestEnv) (cs : list Callback) :
  is_u64 (ticks_left e) → ticks_args_u64 cs →
  ticks_left (run cs e) = Z.max 0 (ticks_left e - ticks_charged cs).
Proof.
  revert e. induction cs as [|c cs IH]; intros e Ht Hcs.
  - simpl. unfold is_u64 in Ht. lia.
  - assert (Hskip : (∀ n, c ≠ CbAddTicks n) →
                    ticks_args_u64 cs → ticks_charged (c :: cs) = ticks_charged cs →
                    ticks_left (run (c :: cs) e)
                    = Z.max 0 (ticks_left e - ticks_charged (c :: cs))).
    { intros Hc Hcs' Heq. simpl run. rewrite IH, Heq.
      - rewrite ticks_left_perform by exact Hc. reflexivity.
      - rewrite ticks_left_perform by exact Hc. exact Ht.
      - exact Hcs'. }
    destruct c; try (apply Hskip; [intros ? ?; discriminate | exact Hcs | reflexivity]).
    clear Hskip. destruct Hcs as [Hn Hcs]. simpl.
    pose proof (ticks_left_AddTicks ticks e Ht Hn) as E1.
    pose proof (ticks_charged_nonneg cs Hcs) as Hpos.
    rewrite IH; [| rewrite E1; unfold is_u64 in *; lia | exact Hcs].
    rewrite E1. unfold is_u64 in *. lia.
Qed.

Lemma budget_after_run_witness :
  ticks_left
    (run [CbAddTicks 30; CbMemoryWrite64 0 7; CbAddTicks 50;
          CbGetTicksRemaining; CbAddTicks 40; CbInterpreterFallback 0 1]
       main_env) = 0.
Proof.
  apply (budget_after_run main_env
           [CbAddTicks 30; CbMemoryWrite64 0 7; CbAddTicks 50;
            CbGetTicksRemaining; CbAddTicks 40; CbInterpreterFallback 0 1]);
    [range_closed | simpl; repeat (split; [range_closed|]); exact I].
Defined.

Lemma eval_GetCNTPCT e :
  eval GetCNTPCT e = wrap64 (0x10000000000 - ticks_left e).
Proof. reflexivity. Qed.

(** X14. The virtual counter is [2^40] minus the budget left; a budget above
    [2^40] makes the subtraction wrap to [2^64 + 2^40 - ticks_left].  After
    [AddTicks n] the counter has advanced, modulo [2^64], by the ticks
    really taken off the budget, [min n ticks_left]. *)
Theorem counter_follows_budget (e : A64TestEnv) (n : Z) :
  is_u64 (ticks_left e) → is_u64 n →
  (ticks_left e <= 2 ^ 40 → eval GetCNTPCT e = 2 ^ 40 - ticks_left e) ∧
  (2 ^ 40 < ticks_left e →
   eval GetCNTPCT e = 2 ^ 64 + 2 ^ 40 - ticks_left e) ∧
  eval GetCNTPCT (exec (AddTicks n) e)
  = wrap64 (eval GetCNTPCT e + Z.min n (ticks_left e)).
Proof.
  intros Ht Hn. rewrite !eval_GetCNTPCT.
  rewrite (ticks_left_AddTicks n e Ht Hn).
  revert Ht Hn. generalize (ticks_left e) as t. intros t Ht Hn.
  change 0x10000000000 with 1099511627776.
  change (2 ^ 40) with 1099511627776.
  split; [|split]; try intros Hcase; lia_mod.
Qed.

Lemma counter_follows_budget_witness :
  eval GetCNTPCT main_env = 2 ^ 40 - 100 ∧
  eval GetCNTPCT (exec (AddTicks 250) main_env)
  = wrap64 (eval GetCNTPCT main_env + Z.min 250 100).
Proof.
  destruct (counter_follows_budget main_env 250) as (Hlow & _ & Hadv);
    [range_closed | range_closed |].
  split; [apply Hlow; vm_compute; discriminate | exact Hadv].
Defined.

(** ** Composition of byte stores, and the interrupt list *)

(** X15. A second byte store to the same address replaces the first, and byte
    stores to different addresses can be swapped: either way the whole
    object ends up the same. *)
Theorem byte_stores_overwrite_and_commute
    (e : A64TestEnv) (a b v w : Z) :
  exec (MemoryWrite8 a w) (exec (MemoryWrite8 a v) e)
  = exec (MemoryWrite8 a w) e ∧
  (a ≠ b →
   exec (MemoryWrite8 b w) (exec (MemoryWrite8 a v) e)
   = exec (MemoryWrite8 a v) (exec (MemoryWrite8 b w) e)).
Proof.
  split; [|intros Hab];
    rewrite !(exec_MemoryWrite8 _ _ (exec _ e)), !IsInCodeMem_MemoryWrite8;
    rewrite !exec_MemoryWrite8;
    unfold set_modified_memory, set_code_mem_modified_by_guest;
    destruct (IsInCodeMem e a), (IsInCodeMem e b); simpl;
    rewrite ?insert_insert_eq; try reflexivity;
    f_equal; apply insert_insert_ne; congruence.
Qed.

Lemma byte_stores_overwrite_and_commute_witness :
  exec (MemoryWrite8 4096 2) (exec (MemoryWrite8 3 1) main_env)
  = exec (MemoryWrite8 3 1) (exec (MemoryWrite8 4096 2) main_env).
Proof.
  destruct (byte_stores_overwrite_and_commute main_env 3 4096 1 2)
    as [_ Hswap].
  apply Hswap. discriminate.
Defined.

(** X16. No callback at all writes the interrupt list: after any sequence of
    callbacks it is what it was when the sequence started. *)
Theorem interrupts_never_written (e : A64TestEnv) (cs : list Callback) :
  interrupts (run cs e) = interrupts e.
Proof. apply (ss_interrupts _ _ _ (run_store_step cs e)). Qed.

(** ** Byte loads after a wide store *)

Lemma MemoryRead8_of_overlay e e' b v :
  code_mem_start_address e' = code_mem_start_address e →
  code_mem e' = code_mem e →
  IsInCodeMem e b = false →
  modified_memory e' !! b = Some v →
  eval (MemoryRead8 b) e' = v.
Proof.
  intros Hs Hc Hout Hv.
  rewrite eval_MemoryRead8_outside
    by (rewrite (IsInCodeMem_same_code _ _ _ Hs Hc); exact Hout).
  rewrite Hv. reflexivity.
Qed.

(** X12. After a 16, 32 or 64 bit store at [a], the byte load at [a + i]
    (modulo [2^64]) returns byte [i] of the stored value whenever that one
    address is outside the Code Region, wherever the other bytes of the
    store fall. *)
Theorem byte_load_after_wide_store (e : A64TestEnv) (a v i : Z) :
  is_u64 a →
  IsInCodeMem e (wrap64 (a + i)) = false →
  (0 <= i < 2 →
   eval (MemoryRead8 (wrap64 (a + i))) (exec (MemoryWrite16 a v) e)
   = le_byte i v) ∧
  (0 <= i < 4 →
   eval (MemoryRead8 (wrap64 (a + i))) (exec (MemoryWrite32 a v) e)
   = le_byte i v) ∧
  (0 <= i < 8 →
   eval (MemoryRead8 (wrap64 (a + i))) (exec (MemoryWrite64 a v) e)
   = le_byte i v).
Proof.
  intros Ha Hout.
  split; [|split]; intros Hi.
  - destruct (store_step_MemoryWrite16 a v e) as [Hs Hc _ _ _].
    apply (MemoryRead8_of_overlay e _ _ _ Hs Hc Hout).
    apply MemoryWrite16_layout; assumption.
  - destruct (store_step_MemoryWrite32 a v e) as [Hs Hc _ _ _].
    apply (MemoryRead8_of_overlay e _ _ _ Hs Hc Hout).
    apply MemoryWrite32_layout; assumption.
  - destruct (store_step_MemoryWrite64 a v e) as [Hs Hc _ _ _].
    apply (MemoryRead8_of_overlay e _ _ _ Hs Hc Hout).
    apply MemoryWrite64_layout; assumption.
Qed.

(** A 64-bit store that starts on the last word of [main]'s program: byte
    5 of the value is read back from address 29, past the code. *)
Lemma byte_load_after_wide_store_witness :
  eval (MemoryRead8 29)
    (exec (MemoryWrite64 24 0x1122334455667788) main_env) = 0x33.
Proof.
  destruct (byte_load_after_wide_store main_env 24 0x1122334455667788 5)
    as (_ & _ & H64); [range_closed | reflexivity |].
  apply H64. lia.
Defined.

(** * The Code Region of the specification and the test of the source *)

Lemma in_code_region_iff e a :
  in_code_region e a = true ↔
  code_mem_start_address e <= a
  < code_mem_start_address e + 4 * Z.of_nat (length (code_mem e)).
Proof.
  unfold in_code_region. rewrite andb_true_iff, Z.leb_le, Z.ltb_lt.
  reflexivity.
Qed.

(** Below the top of the address space the test of the source decides
    membership in the region of the specification. *)
Lemma IsInCodeMem_below_top e a :
  region_below_top e → IsInCodeMem e a = in_code_region e a.
Proof.
  intros [Hs Hend]. unfold IsInCodeMem, in_code_region.
  pose proof (Nat2Z.is_nonneg (length (code_mem e))) as Hlen.
  revert Hs Hend Hlen. generalize (Z.of_nat (length (code_mem e))) as n.
  generalize (code_mem_start_address e) as s. intros s n Hs Hend Hlen.
  assert (E : wrap64 (s + wrap64 (n * 4)) = s + 4 * n) by lia_mod.
  rewrite E. reflexivity.
Qed.

(** Whatever the extent of the region, an address outside it fails the
    test of the source. *)
Lemma outside_region_fails_IsInCodeMem e a :
  is_u64 (code_mem_start_address e) →
  in_code_region e a = false → IsInCodeMem e a = false.
Proof.
  intros Hs Hout. destruct (IsInCodeMem e a) eqn:Hin; [|reflexivity].
  destruct (IsInCodeMem_index e a Hs Hin) as [_ Hidx].
  apply IsInCodeMem_bounds in Hin as [Hlo _].
  assert (Hreg : in_code_region e a = true).
  { apply in_code_region_iff. split; [exact Hlo|].
    revert Hidx Hlo. generalize (Z.of_nat (length (code_mem e))) as n.
    generalize (code_mem_start_address e) as s. intros s n Hidx Hlo.
    Z.to_euclidean_division_equations. lia. }
  congruence.
Qed.

(** Inside a region that ends below the top: the word the address falls
    in, what the fetch returns and what the byte load returns. *)
Lemma in_region_word_and_byte e a :
  region_below_top e → in_code_region e a = true →
  ∃ w, code_mem e !! Z.to_nat ((a - code_mem_start_address e) / 4) = Some w
       ∧ eval (MemoryReadCode a) e = Some w
       ∧ eval (MemoryRead8 a) e
         = le_byte ((a - code_mem_start_address e) mod 4) w.
Proof.
  intros Hfit Hreg.
  assert (Hin : IsInCodeMem e a = true)
    by (rewrite IsInCodeMem_below_top; assumption).
  destruct Hfit as [Hs _].
  destruct (IsInCodeMem_index e a Hs Hin) as [Hoff Hidx].
  destruct (lookup_lt_is_Some_2 (code_mem e)
              (Z.to_nat ((a - code_mem_start_address e) / 4))) as [w Hw];
    [lia|].
  exists w. split; [exact Hw|]. split.
  - rewrite eval_MemoryReadCode, Hin, Hoff. unfold code_word.
    rewrite Hw. reflexivity.
  - rewrite eval_MemoryRead8, Hin, Hoff, code_byte_le.
    + unfold code_word. rewrite Hw. reflexivity.
    + apply IsInCodeMem_bounds in Hin. lia.
Qed.

(** * The claims about the Code Region, in the specification's terms *)

(** C1, amended. A byte store at [a] records the value in the overlay at
    [a].  The read at [a] then returns the stored value when [a] is outside
    the Code Region.  When [a] is inside the Code Region and the region
    ends below [2^64], the read returns what it returned before the store,
    which is the byte of the instruction word at index [(a - start) / 4]
    selected by [(a - start) mod 4].  (In every case the read is decided by
    [IsInCodeMem], as the second part states.) *)
Theorem read_after_store (e : A64TestEnv) (a v : Z) :
  modified_memory (exec (MemoryWrite8 a v) e) !! a = Some v ∧
  eval (MemoryRead8 a) (exec (MemoryWrite8 a v) e)
    = (if IsInCodeMem e a then eval (MemoryRead8 a) e else v) ∧
  (is_u64 (code_mem_start_address e) → in_code_region e a = false →
   eval (MemoryRead8 a) (exec (MemoryWrite8 a v) e) = v) ∧
  (region_below_top e → in_code_region e a = true →
   eval (MemoryRead8 a) (exec (MemoryWrite8 a v) e) = eval (MemoryRead8 a) e
   ∧ ∃ w, code_mem e !! Z.to_nat ((a - code_mem_start_address e) / 4)
          = Some w
          ∧ eval (MemoryRead8 a) (exec (MemoryWrite8 a v) e)
            = le_byte ((a - code_mem_start_address e) mod 4) w).
Proof.
  pose proof (read_after_store_by_guard e a v) as Hguard.
  split; [rewrite modified_memory_MemoryWrite8; apply lookup_insert_eq|].
  split; [exact Hguard|]. split.
  - intros Hs Hout.
    rewrite Hguard, (outside_region_fails_IsInCodeMem e a Hs Hout).
    reflexivity.
  - intros Hfit Hreg.
    rewrite Hguard, (IsInCodeMem_below_top e a Hfit), Hreg.
    split; [reflexivity|].
    destruct (in_region_word_and_byte e a Hfit Hreg) as (w & Hw & _ & Hb).
    exists w. split; assumption.
Qed.

(** C1 (amended) on [main]'s program: the store at address 5 is recorded
    but the read still returns the code byte; at address 4096 the read
    returns the stored value. *)
Lemma read_after_store_witness :
  modified_memory (exec (MemoryWrite8 5 0xAA) main_env) !! 5 = Some 0xAA ∧
  eval (MemoryRead8 5) (exec (MemoryWrite8 5 0xAA) main_env)
    = le_byte 1 0xD2800001 ∧
  eval (MemoryRead8 4096) (exec (MemoryWrite8 4096 0xAA) main_env) = 0xAA.
Proof.
  destruct (read_after_store main_env 5 0xAA) as (Hrec & _ & _ & Hin).
  destruct (read_after_store main_env 4096 0xAA) as (_ & _ & Hout & _).
  split; [exact Hrec|]. split.
  - destruct Hin as (_ & w & Hw & Hread);
      [split; [range_closed | vm_compute; reflexivity] | reflexivity |].
    injection Hw as <-. exact Hread.
  - apply Hout; [range_closed | reflexivity].
Defined.

(** C2, amended. A byte store leaves every fetch as it was.  When the
    store goes to an address [a] inside a Code Region that ends below
    [2^64], the self-modification flag is set, and the fetch at any
    address [a'] inside the region (the word containing [a] included)
    returns the word stored at index [(a' - start) / 4] of the unchanged
    word array. *)
Theorem fetch_unchanged_by_store (e : A64TestEnv) (a v a' : Z) :
  eval (MemoryReadCode a') (exec (MemoryWrite8 a v) e)
    = eval (MemoryReadCode a') e ∧
  (region_below_top e → in_code_region e a = true →
   code_mem_modified_by_guest (exec (MemoryWrite8 a v) e) = true
   ∧ (in_code_region e a' = true →
      ∃ w, code_mem e !! Z.to_nat ((a' - code_mem_start_address e) / 4)
           = Some w
           ∧ eval (MemoryReadCode a') (exec (MemoryWrite8 a v) e) = Some w)).
Proof.
  split; [apply fetch_after_MemoryWrite8|].
  intros Hfit Hreg. split.
  - apply MemoryWrite8_sets_flag.
    rewrite IsInCodeMem_below_top; assumption.
  - intros Hreg'.
    destruct (in_region_word_and_byte e a' Hfit Hreg') as (w & Hw & Hf & _).
    exists w. split; [exact Hw|].
    rewrite fetch_after_MemoryWrite8. exact Hf.
Qed.

(** C2 (amended) on [main]'s program: after a store at address 5 the
    fetch of the word containing it, at address 4, still returns the second
    instruction word. *)
Lemma fetch_unchanged_by_store_witness :
  eval (MemoryReadCode 4) (exec (MemoryWrite8 5 0xFF) main_env)
    = Some 0xD2800001
  ∧ code_mem_modified_by_guest (exec (MemoryWrite8 5 0xFF) main_env) = true.
Proof.
  destruct (fetch_unchanged_by_store main_env 5 0xFF 4) as [_ Hin].
  destruct Hin as (Hflag & Hfetch);
    [split; [range_closed | vm_compute; reflexivity] | reflexivity |].
  split; [|exact Hflag].
  destruct Hfetch as (w & Hw & Hf); [reflexivity|].
  injection Hw as <-. exact Hf.
Defined.

(** C3, counterexample. In [top_env] the first address of the region is
    inside the Code Region of the specification, yet [IsInCodeMem] rejects
    it (the [u64] upper bound wraps to 0) and a byte store there leaves the
    flag clear. *)
Lemma flag_clear_after_store_at_top :
  in_code_region top_env 0xFFFFFFFFFFFFFFF8 = true ∧
  IsInCodeMem top_env 0xFFFFFFFFFFFFFFF8 = false ∧
  code_mem_modified_by_guest
    (exec (MemoryWrite8 0xFFFFFFFFFFFFFFF8 0x55) top_env) = false ∧
  ¬ store_in_region_sets_flag top_env 0xFFFFFFFFFFFFFFF8 0x55.
Proof.
  split; [reflexivity|]. split; [reflexivity|]. split; [reflexivity|].
  intros H. specialize (H eq_refl). vm_compute in H. discriminate H.
Qed.

(** C3, amended. A fresh object has the flag clear; when the Code Region
    ends below [2^64], a byte store to any address inside it sets the flag;
    and once the flag is set it is still set after any sequence of
    callbacks of the environment. *)
Theorem self_modify_flag_is_sticky
    (e : A64TestEnv) (a v : Z) (cs : list Callback) :
  code_mem_modified_by_guest A64TestEnv_new = false ∧
  (region_below_top e → in_code_region e a = true →
   code_mem_modified_by_guest (exec (MemoryWrite8 a v) e) = true) ∧
  (code_mem_modified_by_guest e = true →
   code_mem_modified_by_guest (run cs e) = true).
Proof.
  destruct (flag_clear_set_kept e a v cs) as (Hnew & Hset & Hkeep).
  split; [exact Hnew|]. split; [|exact Hkeep].
  intros Hfit Hreg. apply Hset.
  rewrite IsInCodeMem_below_top; assumption.
Qed.

(** C3 (amended) at work: a store into [main]'s program sets the flag, and
    five further callbacks leave it set. *)
Lemma self_modify_flag_is_sticky_witness :
  code_mem_modified_by_guest (exec (MemoryWrite8 5 0xAA) main_env) = true ∧
  code_mem_modified_by_guest
    (run [CbMemoryWrite32 4096 7; CbAddTicks 3; CbMemoryRead64 0;
          CbMemoryWriteExclusive8 9000 1 2; CbCallSVC 0]
       (exec (MemoryWrite8 5 0xAA) main_env)) = true.
Proof.
  destruct (self_modify_flag_is_sticky main_env 5 0xAA []) as (_ & Hset & _).
  assert (Hflag : code_mem_modified_by_guest
                    (exec (MemoryWrite8 5 0xAA) main_env) = true)
    by (apply Hset;
        [split; [range_closed | vm_compute; reflexivity] | reflexivity]).
  split; [exact Hflag|].
  destruct (self_modify_flag_is_sticky (exec (MemoryWrite8 5 0xAA) main_env)
              0 0
              [CbMemoryWrite32 4096 7; CbAddTicks 3; CbMemoryRead64 0;
               CbMemoryWriteExclusive8 9000 1 2; CbCallSVC 0])
    as (_ & _ & Hkeep).
  apply Hkeep. exact Hflag.
Defined.

(** C6, counterexample. In [top_env] the first address of the region is
    aligned and inside the Code Region of the specification, and the word
    stored at its index is [0xD2800000]; the fetch there returns the
    sentinel [0x14000000]. *)
Lemma fetch_sentinel_inside_region_at_top :
  in_code_region top_env 0xFFFFFFFFFFFFFFF8 = true ∧
  0xFFFFFFFFFFFFFFF8 mod 4 = 0 ∧
  code_mem top_env
    !! Z.to_nat ((0xFFFFFFFFFFFFFFF8 - code_mem_start_address top_env) / 4)
    = Some 0xD2800000 ∧
  eval (MemoryReadCode 0xFFFFFFFFFFFFFFF8) top_env = Some 0x14000000 ∧
  ¬ fetch_in_region_is_stored_word top_env 0xFFFFFFFFFFFFFFF8.
Proof.
  split; [reflexivity|]. split; [reflexivity|]. split; [reflexivity|].
  split; [reflexivity|].
  intros H. specialize (H eq_refl eq_refl). vm_compute in H. discriminate H.
Qed.

(** C6, amended. Outside the Code Region the fetch returns the
    branch-to-self word [0x14000000] whatever callbacks ran before (this
    holds at every address that fails [IsInCodeMem]); when the region ends
    below [2^64], the fetch at an address inside it returns the word stored
    at index [(a - start) / 4], aligned or not, whatever callbacks ran
    before. *)
Theorem fetch_sentinel_or_stored_word
    (e : A64TestEnv) (cs : list Callback) (a : Z) :
  (IsInCodeMem e a = false →
   eval (MemoryReadCode a) (run cs e) = Some 0x14000000) ∧
  (is_u64 (code_mem_start_address e) → in_code_region e a = false →
   eval (MemoryReadCode a) (run cs e) = Some 0x14000000) ∧
  (region_below_top e → in_code_region e a = true →
   ∃ w, code_mem e !! Z.to_nat ((a - code_mem_start_address e) / 4) = Some w
        ∧ eval (MemoryReadCode a) (run cs e) = Some w).
Proof.
  destruct (fetch_by_guard e cs a) as [Hout Hin].
  split; [exact Hout|]. split.
  - intros Hs Hreg. apply Hout.
    apply outside_region_fails_IsInCodeMem; assumption.
  - intros Hfit Hreg. apply Hin; [|apply Hfit].
    rewrite IsInCodeMem_below_top; assumption.
Qed.

(** C6 (amended) at work on [main]'s program: address 4096 fetches the
    sentinel even after a store there, address 12 fetches the fourth
    word. *)
Lemma fetch_sentinel_or_stored_word_witness :
  eval (MemoryReadCode 4096)
    (run [CbMemoryWrite32 4096 0xD503201F; CbMemoryWrite8 0 1] main_env)
  = Some 0x14000000
  ∧ eval (MemoryReadCode 12)
      (run [CbMemoryWrite32 4096 0xD503201F; CbMemoryWrite8 0 1] main_env)
    = Some 0x91000421.
Proof.
  split.
  - destruct (fetch_sentinel_or_stored_word main_env
                [CbMemoryWrite32 4096 0xD503201F; CbMemoryWrite8 0 1] 4096)
      as (_ & Hout & _).
    apply Hout; [range_closed | reflexivity].
  - destruct (fetch_sentinel_or_stored_word main_env
                [CbMemoryWrite32 4096 0xD503201F; CbMemoryWrite8 0 1] 12)
      as (_ & _ & Hin).
    destruct Hin as (w & Hw & Hfetch);
      [split; [range_closed | vm_compute; reflexivity] | reflexivity |].
    rewrite Hfetch. symmetry. exact Hw.
Defined.
